(** * The Oberon+ front-end data model (ObxAst.h) and the ObsFiles binding

    A shallow embedding of the abstract syntax graph declared in
    [ObxAst.h] (namespace [Obx]) and of the file-buffer primitives of the
    Oberon System runtime ([ObsFiles_*]).

    Conventions.
    - A C++ enumeration is an inductive type together with [code] (the
      enumerator's integer value) and [of_code] (its partial inverse);
      a field that stores a tag in a [quint8] or a bit field is a [Z].
    - An object that other objects point to through a raw pointer
      ([Named*], [NoRef<Named>]) carries its address ([ptr]); a pointer is
      that address, the null pointer is [None].
    - Owning links ([Ref<T>] children) are sub-terms. *)

From Stdlib Require Import ZArith List Bool Lia.
From stdpp Require Import gmap strings list fin_maps.

Local Open Scope Z_scope.
Set Warnings "-register-all".

(** Storing [v] into an unsigned bit field (or unsigned integer) of [w] bits. *)
Definition wrap (w v : Z) : Z := v mod 2 ^ w.

(** The address of an object; [option ptr] is a nullable raw pointer. *)
Definition ptr := positive.

Module Obx.

(** ** Enumerations of ObxAst.h *)

(** [Thing::Tag]. *)
Module Thing.
Inductive Tag :=
| T_Thing | T_Module | T_Import | T_Pointer | T_Record | T_BaseType | T_Array
| T_ProcType | T_NamedType | T_ArgExpr | T_Literal | T_SetExpr | T_IdentLeaf
| T_UnExpr | T_IdentSel | T_BinExpr | T_Field | T_Const | T_BuiltIn
| T_Parameter | T_Return | T_Procedure | T_Variable | T_LocalVar | T_QualiType
| T_Call | T_Assign | T_IfLoop | T_ForLoop | T_CaseStmt | T_Scope
| T_Enumeration | T_GenericName | T_Exit | T_MAX.
End Thing.

(** The anonymous enumeration of [struct BaseType]. *)
Module BaseType.
Inductive Kind :=
| ANY | NIL | STRING | WSTRING | BOOLEAN | CHAR | WCHAR | BYTE | SHORTINT
| INTEGER | LONGINT | REAL | LONGREAL | SET.

Definition code (k : Kind) : Z :=
  match k with
  | ANY => 0 | NIL => 1 | STRING => 2 | WSTRING => 3 | BOOLEAN => 4
  | CHAR => 5 | WCHAR => 6 | BYTE => 7 | SHORTINT => 8 | INTEGER => 9
  | LONGINT => 10 | REAL => 11 | LONGREAL => 12 | SET => 13
  end.

Definition of_code (c : Z) : option Kind :=
  match c with
  | 0 => Some ANY | 1 => Some NIL | 2 => Some STRING | 3 => Some WSTRING
  | 4 => Some BOOLEAN | 5 => Some CHAR | 6 => Some WCHAR | 7 => Some BYTE
  | 8 => Some SHORTINT | 9 => Some INTEGER | 10 => Some LONGINT
  | 11 => Some REAL | 12 => Some LONGREAL | 13 => Some SET
  | _ => None
  end.

(** Width of the bit field [Type::d_type] ("used by BaseType"). *)
Definition d_type_bits : Z := 4.
End BaseType.

(** [Named::Visibility]. *)
Inductive Visibility := NotApplicable | Private | ReadWrite | ReadOnly.

Definition Visibility_code (v : Visibility) : Z :=
  match v with NotApplicable => 0 | Private => 1 | ReadWrite => 2 | ReadOnly => 3 end.

(** [IdentRole]. *)
Inductive IdentRole :=
| NoRole | DeclRole | LhsRole | VarRole | RhsRole | SuperRole | SubRole
| CallRole | ImportRole | ThisRole | MethRole | StringRole.

(** [struct Literal]: value kinds and the set representation. *)
Module Literal.
Definition SET_BIT_LEN : Z := 32.

Inductive ValueType :=
| Invalid | Integer | Real | Boolean | String | Bytes | Char | Nil | Set_.

Definition code (t : ValueType) : Z :=
  match t with
  | Invalid => 0 | Integer => 1 | Real => 2 | Boolean => 3 | String => 4
  | Bytes => 5 | Char => 6 | Nil => 7 | Set_ => 8
  end.

Definition of_code (c : Z) : option ValueType :=
  match c with
  | 0 => Some Invalid | 1 => Some Integer | 2 => Some Real | 3 => Some Boolean
  | 4 => Some String | 5 => Some Bytes | 6 => Some Char | 7 => Some Nil
  | 8 => Some Set_ | _ => None
  end.

(** [typedef std::bitset<SET_BIT_LEN> SET]: a bitset of [SET_BIT_LEN] bits
    is the number whose binary digits are its bits, so a value of the type
    is a [Z] in the range [0 .. 2^SET_BIT_LEN - 1]. *)
Definition SET := Z.

Definition is_SET (s : SET) : Prop := 0 <= s < 2 ^ SET_BIT_LEN.

(** [std::bitset::test(pos)] and [set(pos)]: both throw [std::out_of_range]
    ([None]) when [pos] is not a valid bit position (positions are [size_t],
    so never negative). *)
Definition test (s : SET) (pos : Z) : option bool :=
  if (0 <=? pos) && (pos <? SET_BIT_LEN) then Some (Z.testbit s pos) else None.

Definition set (s : SET) (pos : Z) : option SET :=
  if (0 <=? pos) && (pos <? SET_BIT_LEN) then Some (Z.lor s (Z.shiftl 1 pos)) else None.

(** The default-constructed bitset: all bits zero. *)
Definition empty : SET := 0.

(** Membership of an element in the set a [SET] value denotes. *)
Definition elem (i : Z) (s : SET) : bool := Z.testbit s i.
End Literal.

(** [UnExpr::Op]. *)
Module UnExpr.
Inductive Op := Invalid | NEG | NOT | DEREF | ADDROF | CAST | SEL | CALL | IDX.

Definition code (o : Op) : Z :=
  match o with
  | Invalid => 0 | NEG => 1 | NOT => 2 | DEREF => 3 | ADDROF => 4
  | CAST => 5 | SEL => 6 | CALL => 7 | IDX => 8
  end.

Definition of_code (c : Z) : option Op :=
  match c with
  | 0 => Some Invalid | 1 => Some NEG | 2 => Some NOT | 3 => Some DEREF
  | 4 => Some ADDROF | 5 => Some CAST | 6 => Some SEL | 7 => Some CALL
  | 8 => Some IDX | _ => None
  end.
End UnExpr.

(** [BinExpr::Op]. *)
Module BinExpr.
Inductive Op :=
| Invalid | Range
| EQ | NEQ | LT | LEQ | GT | GEQ | IN | IS
| ADD | SUB | OR
| MUL | FDIV | DIV | MOD | AND.

Definition code (o : Op) : Z :=
  match o with
  | Invalid => 0 | Range => 1
  | EQ => 2 | NEQ => 3 | LT => 4 | LEQ => 5 | GT => 6 | GEQ => 7 | IN => 8 | IS => 9
  | ADD => 10 | SUB => 11 | OR => 12
  | MUL => 13 | FDIV => 14 | DIV => 15 | MOD => 16 | AND => 17
  end.

Definition of_code (c : Z) : option Op :=
  match c with
  | 0 => Some Invalid | 1 => Some Range
  | 2 => Some EQ | 3 => Some NEQ | 4 => Some LT | 5 => Some LEQ
  | 6 => Some GT | 7 => Some GEQ | 8 => Some IN | 9 => Some IS
  | 10 => Some ADD | 11 => Some SUB | 12 => Some OR
  | 13 => Some MUL | 14 => Some FDIV | 15 => Some DIV | 16 => Some MOD
  | 17 => Some AND
  | _ => None
  end.

(** Every enumerator, in declaration order. *)
Definition enumerators : list Op :=
  [Invalid; Range; EQ; NEQ; LT; LEQ; GT; GEQ; IN; IS; ADD; SUB; OR;
   MUL; FDIV; DIV; MOD; AND].
End BinExpr.

(** The anonymous enumeration of [struct IfLoop]. *)
Module IfLoop.
Inductive Op := IF | WHILE | REPEAT | WITH | LOOP.

Definition code (o : Op) : Z :=
  match o with IF => 0 | WHILE => 1 | REPEAT => 2 | WITH => 3 | LOOP => 4 end.

Definition of_code (c : Z) : option Op :=
  match c with
  | 0 => Some IF | 1 => Some WHILE | 2 => Some REPEAT | 3 => Some WITH
  | 4 => Some LOOP | _ => None
  end.
End IfLoop.

(** A [QVariant] as the AST uses it: the value of a literal or constant.
    [VNone] is the invalid (default-constructed) variant; a real number is
    kept as the bit pattern of its [double]. *)
Inductive Value :=
| VNone
| VInt (z : Z)
| VReal (bits : Z)
| VBool (b : bool)
| VStr (s : string)
| VBytes (b : list Z)
| VChar (c : Z)
| VNil
| VSet (s : Literal.SET).

(** ** The object graph *)

(** [struct Scope], the members it adds to [Named]: the name-keyed lookup
    [d_names] (a [QHash] from interned names to [Named*]) and the insertion
    list [d_order].  The entities of a scope live in the store ([Heap]
    below) and a scope lists their addresses: the same object is reached
    from [d_names], from [d_order], from identifier uses and from the
    [d_scope] of its own entities.  [d_body] is kept beside the store
    ([FrontEnd.Code] below); [d_helper] and [d_end] are not modelled. *)
Record Scope := mkScope {
  d_names : gmap string ptr;
  d_order : list ptr
}.

(** What each subclass of [Named] adds to it.  Of [Procedure] and [Module]
    only the [Scope] part is kept ([d_receiverRec], [d_super], [d_subs],
    [d_metaParams], [d_imp]; [d_imports], [d_file], [d_fullName] and the
    flags are not read by anything modelled here). *)
Inductive NamedKind :=
| KGenericName
| KField (d_specialization : bool)
| KVariable
| KLocalVar
| KParameter (d_var d_const d_receiver : bool)
| KConst (d_val : Value) (d_vtype : Z)
| KImport (d_path : list string) (d_mod : option ptr)
| KBuiltIn (d_func : Z)
| KScope (s : Scope)
| KProcedure (s : Scope)
| KModule (s : Scope)
| KNamedType (s : Scope).

(** Types, expressions and named entities.  Each constructor lists the
    data members of the struct it stands for, those of the base classes
    first: [Type::d_ident] is the address of the identifier that declares
    the type (null for an anonymous type), and [mkNamed] starts with the
    entity's own address.  Left out: of every node [d_loc]; of [Type]
    the flags [d_visited], [d_unsafe], [d_union] and [d_flag]; of
    [Record] the back links [d_baseRec], [d_subRecs], [d_binding] and the
    index [d_names], which are derived from the owned members; of
    [QualiType] the generic actuals [d_metaActuals]; of [Named] the
    bytecode generator's helpers and [d_synthetic]. *)
Inductive Type_ :=
| TBaseType (d_ident : option ptr) (d_type : Z)
| TPointer (d_ident : option ptr) (d_to : option Type_)
| TArray (d_ident : option ptr) (d_len : Z) (d_lenExpr : option Expression)
    (d_type : option Type_)
| TRecord (d_ident : option ptr) (d_base : option Type_)
    (d_fields : list Named) (d_methods : list Named)
| TProcType (d_ident : option ptr) (d_return : option Type_)
    (d_formals : list Named)
| TQualiType (d_ident : option ptr) (d_quali : option Expression)
    (d_selfRef : bool)
| TEnumeration (d_ident : option ptr) (d_items : list Named)
with Expression :=
| ELiteral (d_type : option Type_) (d_val : Value) (d_vtype : Z) (d_strLen : Z)
| ESetExpr (d_type : option Type_) (d_parts : list Expression)
| EIdentLeaf (d_type : option Type_) (d_ident : option ptr) (d_name : string)
    (d_role : IdentRole) (d_mod : option ptr)
| EUnExpr (d_type : option Type_) (d_op : Z) (d_sub : option Expression)
| EIdentSel (d_type : option Type_) (d_sub : option Expression)
    (d_ident : option ptr) (d_name : string) (d_role : IdentRole)
| EArgExpr (d_type : option Type_) (d_op : Z) (d_sub : option Expression)
    (d_args : list Expression)
| EBinExpr (d_type : option Type_) (d_op : Z) (d_lhs d_rhs : option Expression)
with Named :=
| mkNamed (addr : ptr) (d_name : string) (d_type : option Type_)
    (d_scope : option ptr) (d_visibility : Z) (d_hasErrors : bool)
    (kind : NamedKind).

(** [StatSeq] is a list of statements. *)
Inductive Statement :=
| SCall (d_what : option Expression)
| SReturn (d_what : option Expression)
| SExit
| SAssign (d_lhs d_rhs : option Expression)
| SIfLoop (d_op : Z) (d_if : list Expression) (d_then : list (list Statement))
    (d_else : list Statement)
| SForLoop (d_id d_from d_to d_by : option Expression) (d_byVal : Value)
    (d_do : list Statement)
| SCaseStmt (d_exp : option Expression)
    (d_cases : list (list Expression * list Statement))
    (d_else : list Statement) (d_typeCase : bool).

Definition StatSeq := list Statement.

(** The store of the entities that scopes own, by address. *)
Abbreviation Heap := (gmap ptr Named).

(** *** Members of [Named] *)

Definition Named_addr (n : Named) : ptr :=
  match n with mkNamed a _ _ _ _ _ _ => a end.

Definition Named_name (n : Named) : string :=
  match n with mkNamed _ s _ _ _ _ _ => s end.

Definition Named_type (n : Named) : option Type_ :=
  match n with mkNamed _ _ t _ _ _ _ => t end.

Definition Named_scope (n : Named) : option ptr :=
  match n with mkNamed _ _ _ s _ _ _ => s end.

Definition Named_visibility (n : Named) : Z :=
  match n with mkNamed _ _ _ _ v _ _ => v end.

Definition Named_hasErrors (n : Named) : bool :=
  match n with mkNamed _ _ _ _ _ e _ => e end.

Definition Named_kind (n : Named) : NamedKind :=
  match n with mkNamed _ _ _ _ _ _ k => k end.

(** [Thing::getTag] as each subclass of [Named] overrides it. *)
Definition Named_getTag (n : Named) : Thing.Tag :=
  match Named_kind n with
  | KGenericName => Thing.T_GenericName
  | KField _ => Thing.T_Field
  | KVariable => Thing.T_Variable
  | KLocalVar => Thing.T_LocalVar
  | KParameter _ _ _ => Thing.T_Parameter
  | KConst _ _ => Thing.T_Const
  | KImport _ _ => Thing.T_Import
  | KBuiltIn _ => Thing.T_BuiltIn
  | KScope _ => Thing.T_Scope
  | KProcedure _ => Thing.T_Procedure
  | KModule _ => Thing.T_Module
  | KNamedType _ => Thing.T_NamedType
  end.


(** The [Scope] part of an entity that is a scope. *)
Definition Named_asScope (n : Named) : option Scope :=
  match Named_kind n with
  | KScope s | KProcedure s | KModule s | KNamedType s => Some s
  | _ => None
  end.

(** [virtual bool Named::isVarParam() const { return false; }], overridden
    only by [Parameter]: [return ( d_var || d_const );]. *)
Definition isVarParam (n : Named) : bool :=
  match Named_kind n with
  | KParameter d_var d_const d_receiver => d_var || d_const
  | _ => false
  end.

(** [Named::isPublic]. *)
Definition isPublic (n : Named) : bool :=
  (Named_visibility n =? Visibility_code ReadWrite)
  || (Named_visibility n =? Visibility_code ReadOnly).

(** The constructor [Named(n, t, s)]: every flag cleared, visibility
    [NotApplicable]. *)
Definition new_Named (a : ptr) (n : string) (t : option Type_)
    (s : option ptr) (k : NamedKind) : Named :=
  mkNamed a n t s (Visibility_code NotApplicable) false k.

Arguments new_Named a%_positive n%_string t s k.

(** [Parameter()]: [d_var(false), d_const(false), d_receiver(false)]. *)
Definition new_Parameter (a : ptr) : Named :=
  new_Named a "" None None (KParameter false false false).

(** *** Members of [Type] *)

(** [BaseType(quint8 t = NIL) { d_type = t; }]: the tag goes into a bit
    field of four bits. *)
Definition new_BaseType (t : Z) : Type_ :=
  TBaseType None (wrap BaseType.d_type_bits t).


(** The kind a [BaseType] node's tag stands for. *)
Definition BaseType_kind (t : Type_) : option BaseType.Kind :=
  match t with
  | TBaseType _ d_type => BaseType.of_code d_type
  | _ => None
  end.


Definition Type_getTag (t : Type_) : Thing.Tag :=
  match t with
  | TBaseType _ _ => Thing.T_BaseType
  | TPointer _ _ => Thing.T_Pointer
  | TArray _ _ _ _ => Thing.T_Array
  | TRecord _ _ _ _ => Thing.T_Record
  | TProcType _ _ _ => Thing.T_ProcType
  | TQualiType _ _ _ => Thing.T_QualiType
  | TEnumeration _ _ => Thing.T_Enumeration
  end.

(** [Type::d_ident]. *)
Definition Type_ident (t : Type_) : option ptr :=
  match t with
  | TBaseType i _ | TPointer i _ | TArray i _ _ _ | TRecord i _ _ _
  | TProcType i _ _ | TQualiType i _ _ | TEnumeration i _ => i
  end.



(** *** Members of [Expression] *)

Definition Expression_type (e : Expression) : option Type_ :=
  match e with
  | ELiteral t _ _ _ | ESetExpr t _ | EIdentLeaf t _ _ _ _ | EUnExpr t _ _
  | EIdentSel t _ _ _ _ | EArgExpr t _ _ _ | EBinExpr t _ _ _ => t
  end.

Definition Expression_getTag (e : Expression) : Thing.Tag :=
  match e with
  | ELiteral _ _ _ _ => Thing.T_Literal
  | ESetExpr _ _ => Thing.T_SetExpr
  | EIdentLeaf _ _ _ _ _ => Thing.T_IdentLeaf
  | EUnExpr _ _ _ => Thing.T_UnExpr
  | EIdentSel _ _ _ _ _ => Thing.T_IdentSel
  | EArgExpr _ _ _ _ => Thing.T_ArgExpr
  | EBinExpr _ _ _ _ => Thing.T_BinExpr
  end.

(** [Expression::getIdent], overridden by [IdentLeaf] and [IdentSel]. *)
Definition getIdent (e : Expression) : option ptr :=
  match e with
  | EIdentLeaf _ d_ident _ _ _ => d_ident
  | EIdentSel _ _ d_ident _ _ => d_ident
  | _ => None
  end.

(** [Expression::getSub], overridden by [UnExpr]. *)
Definition getSub (e : Expression) : option Expression :=
  match e with
  | EUnExpr _ _ d_sub | EIdentSel _ d_sub _ _ _ | EArgExpr _ _ d_sub _ => d_sub
  | _ => None
  end.

(** [Expression::getUnOp], overridden by [UnExpr]; an [IdentSel] is built
    by [UnExpr(SEL)]. *)
Definition getUnOp (e : Expression) : Z :=
  match e with
  | EUnExpr _ d_op _ | EArgExpr _ d_op _ _ => d_op
  | EIdentSel _ _ _ _ _ => UnExpr.code UnExpr.SEL
  | _ => 0
  end.

(** [Expression::getIdentRole]. *)
Definition getIdentRole (e : Expression) : IdentRole :=
  match e with
  | EIdentLeaf _ _ _ d_role _ => d_role
  | EIdentSel _ _ _ _ d_role => d_role
  | _ => NoRole
  end.




Definition new_UnExpr (op : Z) (e : option Expression) : Expression :=
  EUnExpr None (wrap 8 op) e.

(** [Literal(t, l, v, typ)]: [d_vtype] is a bit field of eight bits,
    [d_strLen] starts at zero. *)
Definition new_Literal (t : Literal.ValueType) (v : Value) (typ : option Type_)
    : Expression :=
  ELiteral typ v (wrap 8 (Literal.code t)) 0.

End Obx.

(** ** The passes of the front-end over the object graph

    ObxAst.h only declares the data model; the passes that fill it in
    (the bodies of [Scope::find] and [Scope::add], of [QualiType::derefed],
    the type resolver and the expression and statement checker) are not
    among the sources.  Each definition of this module that stands for
    one of them says so and follows the specification, section by
    section. *)

Module FrontEnd.
Import Obx.

(** The kind codes of the diagnostics the specification names; [Other]
    is a violation of a rule for which it names no code. *)
Inductive Error :=
| DuplicateName
| UnresolvedIdent
| IllegalSelfRef
| PointerBaseIllegal
| ArrayLengthError
| InvalidGuard
| RangeMisuse
| AssignIncompatible
| ReadonlyViolation
| ForStepZero
| CaseLabelOverlap
| ExitOutsideLoop
| ImportBroken
| TypeMismatch
| ArityMismatch
| Other (rule : string).

(** *** Scopes and name resolution (section 4.2) *)

(** Replacing the [Scope] members of a scope object. *)
Definition Named_withScope (this : Named) (s : Scope) : Named :=
  match this with
  | mkNamed a nm t sc v e k =>
      mkNamed a nm t sc v e
        match k with
        | KScope _ => KScope s
        | KProcedure _ => KProcedure s
        | KModule _ => KModule s
        | KNamedType _ => KNamedType s
        | _ => k
        end
  end.

(** Modelled from the spec: the body of [Scope::find], declared in
    ObxAst.h as [Named* find( const QByteArray&, bool recursive = true )
    const].  Section 4.2: "[find(name, recursive)] searches the current
    scope, then walks upward".  The walk follows [d_scope], the owning
    scope, "up to module (whose scope is nil)"; [fuel] bounds the number
    of steps upward, and a search that finds nothing answers null. *)
Fixpoint find (h : Heap) (fuel : nat) (this : Named) (name : string)
    (recursive : bool) : option ptr :=
  match Named_asScope this with
  | None => None
  | Some s =>
      match d_names s !! name with
      | Some n => Some n
      | None =>
          if recursive then
            match fuel, Named_scope this with
            | S fuel', Some up =>
                match h !! up with
                | Some outer => find h fuel' outer name true
                | None => None
                end
            | _, _ => None
            end
          else None
      end
  end.

(** Modelled from the spec: the body of [Scope::add], declared in
    ObxAst.h as [bool add( Named* )].  Section 4.2: "[add(entity)]: fails
    with [duplicate-name] if the name already exists at the same scope
    level"; a scope is "a named-entity container with an ordered
    insertion list and a name-keyed lookup", so an entity that is added
    goes into both.  The result is the value returned and the scope
    object as the call leaves it. *)
Definition add (this : Named) (n : Named) : bool * Named :=
  match Named_asScope this with
  | None => (false, this)
  | Some s =>
      match d_names s !! Named_name n with
      | Some _ => (false, this)
      | None =>
          (true,
           Named_withScope this
             (mkScope (<[Named_name n := Named_addr n]> (d_names s))
                      (d_order s ++ [Named_addr n])))
      end
  end.

(** Modelled from the spec: the declaration pass reports a failed [add]
    as [duplicate-name] (section 4.2). *)
Definition declare (this : Named) (n : Named) : Named * list Error :=
  let '(ok, this') := add this n in
  (this', if ok then [] else [DuplicateName]).

(** *** Types *)

(** Modelled from the spec: the body of [QualiType::derefed], which
    overrides [Type::derefed] ([return this]) and is only declared in
    ObxAst.h.  Section 4.3: the declared type of the [NamedType] a quali
    names "becomes [q]'s target"; the target is what [d_quali] is typed
    with, and dereferencing follows targets until a type that is no
    resolved quali. *)
Fixpoint derefed (t : Type_) : Type_ :=
  match t with
  | TQualiType _ (Some q) _ =>
      match q with
      | ELiteral (Some t') _ _ _ | ESetExpr (Some t') _
      | EIdentLeaf (Some t') _ _ _ _ | EUnExpr (Some t') _ _
      | EIdentSel (Some t') _ _ _ _ | EArgExpr (Some t') _ _ _
      | EBinExpr (Some t') _ _ _ => derefed t'
      | _ => t
      end
  | _ => t
  end.

(** The primitive base types are "process-wide singletons per kind". *)
Definition baseType (k : BaseType.Kind) : Type_ :=
  new_BaseType (BaseType.code k).

Definition kindOf (t : Type_) : option BaseType.Kind :=
  BaseType_kind (derefed t).

Definition isKind (k : BaseType.Kind) (t : Type_) : bool :=
  match kindOf t with
  | Some k' => BaseType.code k' =? BaseType.code k
  | None => false
  end.

(** Modelled from the spec, section 4.4.1: the numeric types in promotion
    order, "BYTE < SHORTINT < INTEGER < LONGINT < REAL < LONGREAL"; the
    enumeration lists them in this order, so the wider of two is the one
    with the larger code. *)
Definition isInteger (t : Type_) : bool :=
  match kindOf t with
  | Some k => (BaseType.code BaseType.BYTE <=? BaseType.code k)
              && (BaseType.code k <=? BaseType.code BaseType.LONGINT)
  | None => false
  end.

Definition isReal (t : Type_) : bool :=
  match kindOf t with
  | Some k => (BaseType.code BaseType.REAL <=? BaseType.code k)
              && (BaseType.code k <=? BaseType.code BaseType.LONGREAL)
  | None => false
  end.

Definition isNumeric (t : Type_) : bool := isInteger t || isReal t.

Definition wider (a b : Type_) : Type_ :=
  match kindOf a, kindOf b with
  | Some ka, Some kb =>
      if BaseType.code ka <? BaseType.code kb then derefed b else derefed a
  | _, _ => a
  end.

Definition isChar (t : Type_) : bool :=
  isKind BaseType.CHAR t || isKind BaseType.WCHAR t.

Definition isPointer (t : Type_) : bool :=
  match derefed t with
  | TPointer _ _ => true
  | _ => isKind BaseType.NIL t
  end.

(** A string: the base types STRING and WSTRING, or an array of
    characters (the type of a string literal is "ARRAY n OF CHAR"). *)
Definition isString (t : Type_) : bool :=
  match derefed t with
  | TArray _ _ _ (Some el) => isChar el
  | _ => isKind BaseType.STRING t || isKind BaseType.WSTRING t
  end.

(** Modelled from the spec: "Record or Array": the legal targets of a
    pointer. *)
Definition isRecordOrArray (t : Type_) : bool :=
  match derefed t with
  | TRecord _ _ _ _ | TArray _ _ _ _ => true
  | _ => false
  end.

(** Modelled from the spec: "identical types" (section 4.4.3, rule 1).
    The graph compares types by address; here two base types are
    identical when they are of the same kind (they are singletons per
    kind), and two other types when the same identifier declares
    them. *)
Definition sameType (a b : Type_) : bool :=
  match kindOf a, kindOf b with
  | Some ka, Some kb => BaseType.code ka =? BaseType.code kb
  | None, None =>
      match Type_ident (derefed a), Type_ident (derefed b) with
      | Some ia, Some ib => bool_decide (ia = ib)
      | _, _ => false
      end
  | _, _ => false
  end.

(** Modelled from the spec, glossary: "record R extends record S iff R's
    declared base chain contains S".  [declaredIn target t] walks from [t]
    along base links, through qualis and through a pointer to a record (a
    base "may be a pointer-to-record"), looking for the record that [target]
    declares. *)
Fixpoint declaredIn (target : ptr) (t : Type_) : bool :=
  match t with
  | TQualiType _ (Some q) _ =>
      match q with
      | ELiteral (Some t') _ _ _ | ESetExpr (Some t') _
      | EIdentLeaf (Some t') _ _ _ _ | EUnExpr (Some t') _ _
      | EIdentSel (Some t') _ _ _ _ | EArgExpr (Some t') _ _ _
      | EBinExpr (Some t') _ _ _ => declaredIn target t'
      | _ => false
      end
  | TPointer _ (Some to) => declaredIn target to
  | TRecord i base _ _ =>
      bool_decide (i = Some target)
      || match base with
         | Some b => declaredIn target b
         | None => false
         end
  | _ => false
  end.

(** The record a record type or a pointer-to-record type stands for. *)
Definition recordOf (t : Type_) : option Type_ :=
  match derefed t with
  | TRecord i b f m => Some (TRecord i b f m)
  | TPointer _ (Some to) =>
      match derefed to with
      | TRecord i b f m => Some (TRecord i b f m)
      | _ => None
      end
  | _ => None
  end.

Definition extends (r s : Type_) : bool :=
  match recordOf r, recordOf s with
  | Some (TRecord _ (Some base) _ _), Some s' =>
      match Type_ident s' with
      | Some target => declaredIn target base
      | None => false
      end
  | _, _ => false
  end.

Fixpoint findNamed (name : string) (l : list Named) : option Named :=
  match l with
  | [] => None
  | n :: l' => if bool_decide (Named_name n = name) then Some n else findNamed name l'
  end.

(** Modelled from the spec: the body of [Record::find].  Section 4.2: a
    record "has its own name namespace (fields + methods)", and a search
    in it "walks the base chain". *)
Fixpoint Record_find (name : string) (t : Type_) : option Named :=
  match t with
  | TQualiType _ (Some q) _ =>
      match q with
      | ELiteral (Some t') _ _ _ | ESetExpr (Some t') _
      | EIdentLeaf (Some t') _ _ _ _ | EUnExpr (Some t') _ _
      | EIdentSel (Some t') _ _ _ _ | EArgExpr (Some t') _ _ _
      | EBinExpr (Some t') _ _ _ => Record_find name t'
      | _ => None
      end
  | TPointer _ (Some to) => Record_find name to
  | TRecord _ base fields methods =>
      match findNamed name (fields ++ methods) with
      | Some m => Some m
      | None =>
          match base with
          | Some b => Record_find name b
          | None => None
          end
      end
  | _ => None
  end.

(** *** Compile-time constants *)

(** Modelled from the spec: the evaluator of constant expressions
    ([ObAstEval.h], which the editor includes, is not among the sources).
    The integer value of a "compile-time constant integer": an integer
    literal, a named constant holding one, and the integer operators
    over constants ("CONST c = 1+2*3" has "value 7"; "DIV, MOD: ...
    floored ... toward negative infinity").  Everything else is no
    integer constant. *)
Fixpoint evalInt (h : Heap) (e : Expression) : option Z :=
  match e with
  | ELiteral _ (VInt z) vt _ =>
      if vt =? Literal.code Literal.Integer then Some z else None
  | EIdentLeaf _ (Some p) _ _ _ | EIdentSel _ _ (Some p) _ _ =>
      match h !! p with
      | Some n =>
          match Named_kind n with
          | KConst (VInt z) _ => Some z
          | _ => None
          end
      | None => None
      end
  | EUnExpr _ op (Some s) =>
      match UnExpr.of_code op, evalInt h s with
      | Some UnExpr.NEG, Some z => Some (- z)
      | _, _ => None
      end
  | EBinExpr _ op (Some l) (Some r) =>
      match BinExpr.of_code op, evalInt h l, evalInt h r with
      | Some BinExpr.ADD, Some a, Some b => Some (a + b)
      | Some BinExpr.SUB, Some a, Some b => Some (a - b)
      | Some BinExpr.MUL, Some a, Some b => Some (a * b)
      | Some BinExpr.DIV, Some a, Some b => if b =? 0 then None else Some (a / b)
      | Some BinExpr.MOD, Some a, Some b => if b =? 0 then None else Some (a mod b)
      | _, _, _ => None
      end
  | _ => None
  end.

(** *** The expression checker (section 4.4.1) *)

(** What the checker works in: the store, the scope it is in, and the
    types the specification names without giving them a variant in the
    type model: the "module-reference pseudo-type" of an import, the
    "void" result of a proper procedure, and the "sentinel error type"
    that an offending node is given (section 7), which may be the null
    pointer. *)
Record Env := mkEnv {
  heap : Heap;
  scope : Named;
  moduleType : Type_;
  voidType : Type_;
  errorType : option Type_
}.

(** Modelled from the spec: a rule's answer is the type of the node or
    the diagnostic.  Section 7: "the offending node's [type] is set to a
    sentinel error type; checking continues", and the diagnostic marks
    the module. *)
Definition verdict (env : Env) (r : Error + Type_) : option Type_ * list Error :=
  match r with
  | inl e => (errorType env, [e])
  | inr t => (Some t, [])
  end.

Definition on_opt {X : Type} (f : X -> X * list Error) (o : option X)
    : option X * list Error :=
  match o with
  | Some x => let '(x', er) := f x in (Some x', er)
  | None => (None, [])
  end.

Definition on_list {X : Type} (f : X -> X * list Error)
    : list X -> list X * list Error :=
  fix go l :=
    match l with
    | [] => ([], [])
    | x :: l' =>
        let '(x', e1) := f x in
        let '(l'', e2) := go l' in
        (x' :: l'', e1 ++ e2)
    end.

(** [on_list] with one more argument per element (the role an actual
    parameter is used in); elements past the end of [rs] get [dflt]. *)
Definition on_list_with {X R : Type} (f : R -> X -> X * list Error) (dflt : R)
    : list X -> list R -> list X * list Error :=
  fix go l rs :=
    match l with
    | [] => ([], [])
    | x :: l' =>
        let '(x', e1) := f (hd dflt rs) x in
        let '(l'', e2) := go l' (tl rs) in
        (x' :: l'', e1 ++ e2)
    end.

Definition typeOf (o : option Expression) : option Type_ :=
  match o with
  | Some e => Expression_type e
  | None => None
  end.

(** The entity an address stands for, and the one an identifier use was
    resolved to. *)
Definition entityAt (env : Env) (p : option ptr) : option Named :=
  match p with
  | Some a => heap env !! a
  | None => None
  end.

Definition entityOf (env : Env) (e : Expression) : option Named :=
  entityAt env (getIdent e).

(** Modelled from the spec: "resolve via scope chain": the search may take
    as many steps upward as the store has objects. *)
Definition lookup (env : Env) (name : string) : option Named :=
  match find (heap env) (size (heap env)) (scope env) name true with
  | Some p => heap env !! p
  | None => None
  end.

(** Modelled from the spec: "Type is the entity's declared type (for [Const]
    the type of the value; for [Procedure] its [ProcType]; for [Import] a
    module-reference pseudo-type)".  The first three are the entity's
    [d_type]. *)
Definition declaredType (env : Env) (n : Named) : Error + Type_ :=
  match Named_kind n with
  | KImport _ _ => inr (moduleType env)
  | _ =>
      match Named_type n with
      | Some t => inr t
      | None => inl (Other "the entity has no type")
      end
  end.

(** The number of code points of a UTF-8 string: its bytes other than
    continuation bytes (10xxxxxx). *)
Fixpoint codepoints (s : string) : Z :=
  match s with
  | EmptyString => 0
  | String.String c s' =>
      (if Z.land (Z.of_N (Ascii.N_of_ascii c)) 192 =? 128 then 0 else 1)
      + codepoints s'
  end.

(** Modelled from the spec: "[Literal]: type is the intrinsic base type of
    the literal's kind; string literal is [ARRAY n OF CHAR] where n =
    codepoint count + 1 (for trailing zero), recorded also as [strLen]".  A
    byte string is taken as an array of BYTE of its length.  The answer is
    the type and [d_strLen] (a bit field of 24 bits). *)
Definition literalType (v : Value) (vt : Z) (strLen : Z) : Error + (Type_ * Z) :=
  match Literal.of_code vt, v with
  | Some Literal.Integer, _ => inr (baseType BaseType.INTEGER, strLen)
  | Some Literal.Real, _ => inr (baseType BaseType.REAL, strLen)
  | Some Literal.Boolean, _ => inr (baseType BaseType.BOOLEAN, strLen)
  | Some Literal.String, VStr s =>
      let n := codepoints s + 1 in
      inr (TArray None (wrap 32 n) None (Some (baseType BaseType.CHAR)),
           wrap 24 n)
  | Some Literal.Bytes, VBytes b =>
      inr (TArray None (wrap 32 (Z.of_nat (length b))) None
             (Some (baseType BaseType.BYTE)), strLen)
  | Some Literal.Char, _ => inr (baseType BaseType.CHAR, strLen)
  | Some Literal.Nil, _ => inr (baseType BaseType.NIL, strLen)
  | Some Literal.Set_, _ => inr (baseType BaseType.SET, strLen)
  | _, _ => inl (Other "invalid literal")
  end.

(** Modelled from the spec, section 4.4.4: an lvalue is a "variable, field,
    indexed element, dereference". *)
Definition isVariableKind (k : NamedKind) : bool :=
  match k with
  | KVariable | KLocalVar | KParameter _ _ _ | KField _ => true
  | _ => false
  end.

Definition isLvalue (env : Env) (e : Expression) : bool :=
  match e with
  | EIdentLeaf _ _ _ _ _ =>
      match entityOf env e with
      | Some n => isVariableKind (Named_kind n)
      | None => false
      end
  | EIdentSel _ (Some sub) _ name _ =>
      match entityOf env e with
      | Some n => isVariableKind (Named_kind n)
      | None =>
          match Expression_type sub with
          | Some t =>
              match Record_find name t with
              | Some m => isVariableKind (Named_kind m)
              | None => false
              end
          | None => false
          end
      end
  | EArgExpr _ op _ _ => op =? UnExpr.code UnExpr.IDX
  | EUnExpr _ op _ => op =? UnExpr.code UnExpr.DEREF
  | _ => false
  end.

(** Modelled from the spec: "[IdentSel(sub, name)]: type of [sub] must be a
    record, a pointer-to-record (auto-deref), or a module reference; resolve
    [name] in that namespace."  Section 4.2, for a module reference: "[m]
    must resolve to an [Import]; visibility of [x] in the imported module
    must be read-write or (for read uses only) read-only.  A write to a
    read-only entity through an import is [readonly-violation]." *)
Definition isWrite (role : IdentRole) : bool :=
  match role with
  | LhsRole | VarRole => true
  | _ => false
  end.

Definition selectImported (env : Env) (m : option ptr) (name : string)
    (role : IdentRole) : Error + (ptr * Type_) :=
  match entityAt env m with
  | None => inl ImportBroken
  | Some module =>
      match find (heap env) 0 module name false with
      | None => inl UnresolvedIdent
      | Some p =>
          match heap env !! p with
          | None => inl UnresolvedIdent
          | Some n =>
              if negb (isPublic n) then inl (Other "the entity is not exported")
              else if isWrite role
                      && (Named_visibility n =? Visibility_code ReadOnly)
              then inl ReadonlyViolation
              else
                match declaredType env n with
                | inl er => inl er
                | inr t => inr (p, t)
                end
          end
      end
  end.

Definition selectMember (name : string) (t : Type_) : Error + (ptr * Type_) :=
  match recordOf t with
  | None => inl TypeMismatch
  | Some r =>
      match Record_find name r with
      | None => inl UnresolvedIdent
      | Some m =>
          match Named_type m with
          | Some ft => inr (Named_addr m, ft)
          | None => inl (Other "the entity has no type")
          end
      end
  end.

Definition select (env : Env) (sub : option Expression) (name : string)
    (role : IdentRole) : Error + (ptr * Type_) :=
  match sub with
  | None => inl (Other "missing operand")
  | Some s =>
      match entityOf env s with
      | Some (mkNamed _ _ _ _ _ _ (KImport _ m)) =>
          selectImported env m name role
      | _ =>
          match Expression_type s with
          | Some t => selectMember name t
          | None => inl TypeMismatch
          end
      end
  end.

(** Modelled from the spec: "[UnExpr]: NEG: numeric -> same type.  NOT:
    boolean -> boolean.  DEREF: pointer -> target type.  ADDROF: lvalue ->
    pointer-to-type." The pointer node that ADDROF creates is the value of
    the node's type; the module's helper list that owns it is not modelled. *)
Definition unaryType (env : Env) (op : Z) (sub : option Expression)
    : Error + Type_ :=
  match sub, typeOf sub with
  | Some s, Some t =>
      match UnExpr.of_code op with
      | Some UnExpr.NEG => if isNumeric t then inr t else inl TypeMismatch
      | Some UnExpr.NOT =>
          if isKind BaseType.BOOLEAN t then inr (baseType BaseType.BOOLEAN)
          else inl TypeMismatch
      | Some UnExpr.DEREF =>
          match derefed t with
          | TPointer _ (Some to) => inr to
          | _ => inl TypeMismatch
          end
      | Some UnExpr.ADDROF =>
          if isLvalue env s then inr (TPointer None (Some t))
          else inl TypeMismatch
      | _ => inl (Other "invalid operator")
      end
  | _, _ => inl TypeMismatch
  end.

(** Modelled from the spec, section 4.4.3, rule 6: "[Procedure] ->
    procedure-typed variable when [ProcType] matches exactly": the same
    number of formals, each of the same type and passed the same way, and
    the same return type. *)
Definition sameOptType (a b : option Type_) : bool :=
  match a, b with
  | Some x, Some y => sameType x y
  | None, None => true
  | _, _ => false
  end.

Definition sameFormal (f g : Named) : bool :=
  sameOptType (Named_type f) (Named_type g)
  && match Named_kind f, Named_kind g with
     | KParameter v c _, KParameter v' c' _ => eqb v v' && eqb c c'
     | _, _ => false
     end.

Fixpoint sameFormals (fs gs : list Named) : bool :=
  match fs, gs with
  | [], [] => true
  | f :: fs', g :: gs' => sameFormal f g && sameFormals fs' gs'
  | _, _ => false
  end.

Definition procMatch (a b : Type_) : bool :=
  match derefed a, derefed b with
  | TProcType _ ra fa, TProcType _ rb fb => sameOptType ra rb && sameFormals fa fb
  | _, _ => false
  end.

Definition pointerTarget (t : Type_) : option Type_ :=
  match derefed t with
  | TPointer _ to => to
  | _ => None
  end.

(** Modelled from the spec, section 4.4.3, assignment compatibility of a
    value [rhs] of type [from] with a target of type [to], "in order, first
    match wins". *)
Definition assignable (to from : Type_) (rhs : Expression) : bool :=
  (* 1. identical types *)
  sameType to from
  (* 2. numeric: narrower -> wider *)
  || (isNumeric to && isNumeric from
      && match kindOf from, kindOf to with
         | Some kf, Some kt => BaseType.code kf <=? BaseType.code kt
         | _, _ => false
         end)
  (* 3. NIL to any pointer or procedure variable *)
  || (isKind BaseType.NIL from
      && match derefed to with
         | TPointer _ _ | TProcType _ _ _ => true
         | _ => false
         end)
  (* 4. Pointer(T) -> Pointer(U) when T is an extension of U *)
  || match pointerTarget from, pointerTarget to with
     | Some t, Some u => extends t u
     | _, _ => false
     end
  (* 5. string literal -> ARRAY n OF CHAR when it fits with its zero *)
  || match rhs, derefed to with
     | ELiteral _ (VStr _) vt strLen, TArray _ n _ (Some el) =>
         (vt =? Literal.code Literal.String) && isChar el && (strLen <=? n)
     | _, _ => false
     end
  (* 6. procedure -> procedure-typed variable *)
  || procMatch to from.

(** Modelled from the spec, section 4.4.2, an actual parameter against its
    formal. *)
Definition isOpenArray (t : Type_) : option Type_ :=
  match derefed t with
  | TArray _ 0 None el => el
  | _ => None
  end.

Definition elementType (t : Type_) : option Type_ :=
  match derefed t with
  | TArray _ _ _ el => el
  | _ => None
  end.

Definition paramOk (env : Env) (formal : Named) (actual : Expression) : bool :=
  match Named_type formal, Expression_type actual with
  | Some ft, Some at_ =>
      match isOpenArray ft with
      | Some el =>
          (* "open-array formals accept any array with matching element
             type regardless of length" *)
          sameOptType (Some el) (elementType at_)
      | None =>
          if isVarParam formal
          then isLvalue env actual && (sameType ft at_ || extends at_ ft)
          else assignable ft at_ actual
      end
  | _, _ => false
  end.

Fixpoint paramsOk (env : Env) (formals : list Named) (actuals : list Expression)
    : bool :=
  match formals, actuals with
  | [], [] => true
  | f :: fs, a :: as_ => paramOk env f a && paramsOk env fs as_
  | _, _ => false
  end.

(** Modelled from the spec: "CALL: callee must be of procedure type; arity
    and parameter compatibility checked ...; result type = procedure's
    return (or void)." *)
Definition callType (env : Env) (callee : Type_) (args : list Expression)
    : Error + Type_ :=
  match derefed callee with
  | TProcType _ ret formals =>
      if negb (length args =? length formals)%nat then inl ArityMismatch
      else if negb (paramsOk env formals args) then inl TypeMismatch
      else inr match ret with
               | Some t => t
               | None => voidType env
               end
  | _ => inl TypeMismatch
  end.

(** Modelled from the spec: "IDX: base must be array/open-array; exactly one
    index per dimension; index must be integer-compatible." *)
Fixpoint indexType (t : Type_) (args : list Expression) : Error + Type_ :=
  match args with
  | [] => inr t
  | a :: rest =>
      match elementType t, Expression_type a with
      | Some el, Some it =>
          if isInteger it then indexType el rest else inl TypeMismatch
      | _, _ => inl TypeMismatch
      end
  end.

(** An expression that names a type. *)
Definition denotesType (env : Env) (e : Expression) : option Type_ :=
  match entityOf env e with
  | Some (mkNamed _ _ (Some t) _ _ _ (KNamedType _)) => Some t
  | _ => None
  end.

(** Modelled from the spec: "CAST (type-guard): [v(T)] -- [v] must be of
    record/pointer type; [T] must be an extension of [v]'s static type, else
    [invalid-guard]."  A type is taken to extend itself here. *)
Definition guardOk (static asserted : Type_) : bool :=
  match recordOf static with
  | Some _ => sameType asserted static || extends asserted static
  | None => false
  end.

Definition castType (env : Env) (v : Type_) (args : list Expression)
    : Error + Type_ :=
  match args with
  | [ty] =>
      match denotesType env ty with
      | Some t => if guardOk v t then inr t else inl InvalidGuard
      | None => inl InvalidGuard
      end
  | _ => inl ArityMismatch
  end.

Definition argType (env : Env) (op : Z) (sub : option Expression)
    (args : list Expression) : Error + Type_ :=
  match typeOf sub with
  | None => inl TypeMismatch
  | Some t =>
      match UnExpr.of_code op with
      | Some UnExpr.CALL => callType env t args
      | Some UnExpr.IDX =>
          match args with
          | [] => inl ArityMismatch
          | _ => indexType t args
          end
      | Some UnExpr.CAST => castType env t args
      | _ => inl (Other "invalid operator")
      end
  end.

(** The roles of the actual parameters of a call: [var-arg] where the
    formal is passed by reference, [rhs] elsewhere. *)
Definition argRoles (op : Z) (sub : option Expression) : list IdentRole :=
  match UnExpr.of_code op, typeOf sub with
  | Some UnExpr.CALL, Some t =>
      match derefed t with
      | TProcType _ _ formals =>
          map (fun f => if isVarParam f then VarRole else RhsRole) formals
      | _ => []
      end
  | _, _ => []
  end.

(** Modelled from the spec: "[BinExpr]": arithmetic on numeric operands
    gives "the numeric type of the wider operand"; "DIV, MOD: integer only";
    "FDIV: at least one real operand; both promoted to real"; the set
    operators [+ - * /] on SET; relations on "numeric pairs, char pairs,
    string pairs, pointer pairs", IN and IS give boolean; "Range: only
    inside a [SetExpr] or [CaseStmt] label list; otherwise [range-misuse]".
    The logical operators OR and [&] take and give BOOLEAN, as NOT does. *)
Definition comparable (a b : Type_) : bool :=
  (isNumeric a && isNumeric b) || (isChar a && isChar b)
  || (isString a && isString b) || (isPointer a && isPointer b).

Definition bothSets (a b : Type_) : bool :=
  isKind BaseType.SET a && isKind BaseType.SET b.

Definition binaryType (env : Env) (rangeOk : bool) (op : Z)
    (lhs rhs : option Expression) : Error + Type_ :=
  match typeOf lhs, typeOf rhs with
  | Some a, Some b =>
      match BinExpr.of_code op with
      | Some BinExpr.Range =>
          if negb rangeOk then inl RangeMisuse
          else if (isInteger a && isInteger b) || (isChar a && isChar b)
          then inr a else inl TypeMismatch
      | Some (BinExpr.EQ | BinExpr.NEQ | BinExpr.LT | BinExpr.LEQ
              | BinExpr.GT | BinExpr.GEQ) =>
          if comparable a b then inr (baseType BaseType.BOOLEAN)
          else inl TypeMismatch
      | Some BinExpr.IN =>
          if isInteger a && isKind BaseType.SET b
          then inr (baseType BaseType.BOOLEAN) else inl TypeMismatch
      | Some BinExpr.IS =>
          match rhs with
          | Some r =>
              match denotesType env r with
              | Some t =>
                  if guardOk a t then inr (baseType BaseType.BOOLEAN)
                  else inl InvalidGuard
              | None => inl InvalidGuard
              end
          | None => inl InvalidGuard
          end
      | Some (BinExpr.ADD | BinExpr.SUB | BinExpr.MUL) =>
          if isNumeric a && isNumeric b then inr (wider a b)
          else if bothSets a b then inr (baseType BaseType.SET)
          else inl TypeMismatch
      | Some BinExpr.FDIV =>
          if isNumeric a && isNumeric b && (isReal a || isReal b)
          then inr (wider a b)
          else if bothSets a b then inr (baseType BaseType.SET)
          else inl TypeMismatch
      | Some (BinExpr.DIV | BinExpr.MOD) =>
          if isInteger a && isInteger b then inr (wider a b)
          else inl TypeMismatch
      | Some (BinExpr.OR | BinExpr.AND) =>
          if isKind BaseType.BOOLEAN a && isKind BaseType.BOOLEAN b
          then inr (baseType BaseType.BOOLEAN) else inl TypeMismatch
      | Some BinExpr.Invalid | None => inl (Other "invalid operator")
      end
  | _, _ => inl TypeMismatch
  end.

(** Modelled from the spec: a [SetExpr] is a "list of elements or
    ranges" (section 3); every part is an integer or a range of
    integers, and the set is of type SET. *)
Definition setType (parts : list Expression) : Error + Type_ :=
  if forallb (fun p => match Expression_type p with
                       | Some t => isInteger t
                       | None => false
                       end) parts
  then inr (baseType BaseType.SET) else inl TypeMismatch.

(** Modelled from the spec: the expression checker (section 4.4.1; the
    validator is not among the sources).  It "resolves every identifier
    use against the scope chain and via qualified access; computes a type
    for every expression; ... attaches role annotations to identifier
    occurrences".  The result is the expression as the checker leaves it
    and the diagnostics; "no error short-circuits the pass".  [role] is
    the use the expression is put to, [rangeOk] whether a range may stand
    here. *)
Fixpoint checkExpr (env : Env) (role : IdentRole) (rangeOk : bool)
    (e : Expression) {struct e} : Expression * list Error :=
  match e with
  | ELiteral _ v vt strLen =>
      match literalType v vt strLen with
      | inl er => (ELiteral (errorType env) v vt strLen, [er])
      | inr (t, n) => (ELiteral (Some t) v vt n, [])
      end
  | ESetExpr _ parts =>
      let '(parts', e1) := on_list (checkExpr env RhsRole true) parts in
      let '(t, e2) := verdict env (setType parts') in
      (ESetExpr t parts', e1 ++ e2)
  | EIdentLeaf _ _ name _ d_mod =>
      match lookup env name with
      | None =>
          (EIdentLeaf (errorType env) None name role d_mod, [UnresolvedIdent])
      | Some n =>
          let '(t, e1) := verdict env (declaredType env n) in
          (EIdentLeaf t (Some (Named_addr n)) name role d_mod, e1)
      end
  | EUnExpr _ op sub =>
      let '(sub', e1) := on_opt (checkExpr env role false) sub in
      let '(t, e2) := verdict env (unaryType env op sub') in
      (EUnExpr t op sub', e1 ++ e2)
  | EIdentSel _ sub _ name _ =>
      let '(sub', e1) := on_opt (checkExpr env role false) sub in
      match select env sub' name role with
      | inl er => (EIdentSel (errorType env) sub' None name role, e1 ++ [er])
      | inr (p, t) => (EIdentSel (Some t) sub' (Some p) name role, e1)
      end
  | EArgExpr _ op sub args =>
      let subRole := if op =? UnExpr.code UnExpr.CALL then CallRole else role in
      let '(sub', e1) := on_opt (checkExpr env subRole false) sub in
      let '(args', e2) :=
        on_list_with (fun r => checkExpr env r false) RhsRole args
          (argRoles op sub') in
      let '(t, e3) := verdict env (argType env op sub' args') in
      (EArgExpr t op sub' args', e1 ++ e2 ++ e3)
  | EBinExpr _ op lhs rhs =>
      let '(lhs', e1) := on_opt (checkExpr env RhsRole false) lhs in
      let '(rhs', e2) := on_opt (checkExpr env RhsRole false) rhs in
      let '(t, e3) := verdict env (binaryType env rangeOk op lhs' rhs') in
      (EBinExpr t op lhs' rhs', e1 ++ e2 ++ e3)
  end.

(** *** The type resolver (section 4.3) *)

Definition Named_withType (n : Named) (t : option Type_) : Named :=
  match n with
  | mkNamed a nm _ sc v e k => mkNamed a nm t sc v e k
  end.

Definition Named_withErrors (n : Named) (e : bool) : Named :=
  match n with
  | mkNamed a nm t sc v _ k => mkNamed a nm t sc v e k
  end.

(** An expression with its type taken away again. *)
Definition untyped (e : Expression) : Expression :=
  match e with
  | ELiteral _ v vt n => ELiteral None v vt n
  | ESetExpr _ ps => ESetExpr None ps
  | EIdentLeaf _ i nm r m => EIdentLeaf None i nm r m
  | EUnExpr _ op s => EUnExpr None op s
  | EIdentSel _ s i nm r => EIdentSel None s i nm r
  | EArgExpr _ op s a => EArgExpr None op s a
  | EBinExpr _ op l r => EBinExpr None op l r
  end.

(** Modelled from the spec: "[resolveType(Quali q)]: if already resolved,
    return.  Otherwise look up [q.quali] via the scope chain; if the target
    is a [NamedType], its declared type becomes [q]'s target.  If the lookup
    hits a self-reference (the very [NamedType] being resolved), mark
    [q.selfRef=true] -- legal only inside a [Pointer] or inside
    record/procedure type composition; otherwise [illegal-self-ref]." [self]
    is the [NamedType] being resolved, [inComposite] whether the quali
    stands inside a pointer, record or procedure type. *)
Definition resolveQuali (env : Env) (self : option ptr) (inComposite : bool)
    (i : option ptr) (q : Expression) (selfRef : bool) : Type_ * list Error :=
  match Expression_type q with
  | Some _ => (TQualiType i (Some q) selfRef, [])
  | None =>
      let '(q', e1) := checkExpr env RhsRole false q in
      match entityOf env q' with
      | Some (mkNamed a _ _ _ _ _ (KNamedType _)) =>
          if bool_decide (self = Some a)
          then (TQualiType i (Some q') true,
                e1 ++ if inComposite then [] else [IllegalSelfRef])
          else (TQualiType i (Some q') false, e1)
      | Some _ => (TQualiType i (Some (untyped q')) selfRef,
                   e1 ++ [Other "the quali names no type"])
      | None => (TQualiType i (Some (untyped q')) selfRef,
                 e1 ++ if e1 is [] then [UnresolvedIdent] else [])
      end
  end.

(** Modelled from the spec: section 4.3, step 5.  A fixed-length array
    "whose length expression is not a compile-time constant integer >= 1
    is [array-length-error]"; the length goes into [d_len], a
    [quint32]. *)
Definition resolveLength (env : Env) (len : Z) (x : Expression)
    : Z * Expression * list Error :=
  let '(x', e1) := checkExpr env RhsRole false x in
  match evalInt (heap env) x' with
  | Some n =>
      if 1 <=? n then (wrap 32 n, x', e1)
      else (len, x', e1 ++ [ArrayLengthError])
  | None => (len, x', e1 ++ [ArrayLengthError])
  end.

(** Modelled from the spec: the type resolver's [resolveType] (section
    4.3, steps 2 to 6; the validator is not among the sources).  The
    result is the type as resolution leaves it, and the diagnostics.
    Left out: the back links a record resolution appends to
    ([base.subRecs]), the cap on extension depth, and generic
    instantiation (step 7; the qualis here carry no actuals). *)
Fixpoint resolveType (env : Env) (self : option ptr) (inComposite : bool)
    (t : Type_) {struct t} : Type_ * list Error :=
  match t with
  | TBaseType _ _ => (t, [])
  | TQualiType i (Some q) selfRef => resolveQuali env self inComposite i q selfRef
  | TQualiType i None selfRef => (t, [UnresolvedIdent])
  | TPointer i to =>
      (* "recursively resolve p.to; the resolved type must be Record or
         Array; else pointer-base-illegal" *)
      let '(to', e1) := on_opt (resolveType env self true) to in
      (TPointer i to',
       e1 ++ match to' with
             | Some x => if isRecordOrArray x then [] else [PointerBaseIllegal]
             | None => [PointerBaseIllegal]
             end)
  | TArray i len lenExpr el =>
      (* "resolve element type", then the length *)
      let '(el', e1) := on_opt (resolveType env self inComposite) el in
      match lenExpr with
      | None => (TArray i len None el', e1)
      | Some x =>
          let '(len', x', e2) := resolveLength env len x in
          (TArray i len' (Some x') el', e1 ++ e2)
      end
  | TRecord i base fields methods =>
      (* "resolve r.base if present; the base must resolve to another
         Record (possibly via Pointer dereference) ...  Then resolve each
         field's type and each method's procedure type." *)
      let '(base', e1) := on_opt (resolveType env self false) base in
      let e1' := match base' with
                 | Some b => if recordOf b is Some _ then []
                             else [Other "the base is not a record"]
                 | None => []
                 end in
      let member := fun n : Named =>
        let '(t', er) := on_opt (resolveType env self true) (Named_type n) in
        (Named_withType n t', er) in
      let '(fields', e2) := on_list member fields in
      let '(methods', e3) := on_list member methods in
      (TRecord i base' fields' methods', e1 ++ e1' ++ e2 ++ e3)
  | TProcType i ret formals =>
      (* "resolve each formal's type and the return type" *)
      let formal := fun n : Named =>
        let '(t', er) := on_opt (resolveType env self true) (Named_type n) in
        (Named_withType n t', er) in
      let '(formals', e1) := on_list formal formals in
      let '(ret', e2) := on_opt (resolveType env self true) ret in
      (TProcType i ret' formals', e1 ++ e2)
  | TEnumeration _ _ => (t, [])
  end.

(** Modelled from the spec: "Walk each module's type-declaration list; for
    each [NamedType], call [resolveType(t)]."  The resolved type replaces
    the declared one in the store; a declaration with diagnostics is marked
    [has-errors]. *)
Definition withHeap (env : Env) (h : Heap) : Env :=
  mkEnv h (scope env) (moduleType env) (voidType env) (errorType env).

Definition resolveDecl (env : Env) (p : ptr) : Env * list Error :=
  match heap env !! p with
  | Some (mkNamed a nm (Some t) sc v e (KNamedType s)) =>
      let '(t', er) := resolveType env (Some a) false t in
      (withHeap env
         (<[p := mkNamed a nm (Some t') sc v
                   (e || if er is [] then false else true) (KNamedType s)]>
            (heap env)),
       er)
  | _ => (env, [])
  end.

Fixpoint resolveDecls (env : Env) (ps : list ptr) : Env * list Error :=
  match ps with
  | [] => (env, [])
  | p :: ps' =>
      let '(env1, e1) := resolveDecl env p in
      let '(env2, e2) := resolveDecls env1 ps' in
      (env2, e1 ++ e2)
  end.

Definition resolveModule (env : Env) : Env * list Error :=
  match Named_asScope (scope env) with
  | Some s => resolveDecls env (d_order s)
  | None => (env, [])
  end.

(** A type and the types it owns: the target of a pointer, the element
    type of an array, the base, the field types and the method types of a
    record, the formal types and the return type of a procedure type. *)
Fixpoint owned (t : Type_) : list Type_ :=
  t :: match t with
       | TPointer _ (Some x) => owned x
       | TArray _ _ _ (Some x) => owned x
       | TRecord _ base fields methods =>
           match base with Some b => owned b | None => [] end
           ++ flat_map (fun n => match Named_type n with
                                 | Some x => owned x
                                 | None => []
                                 end) fields
           ++ flat_map (fun n => match Named_type n with
                                 | Some x => owned x
                                 | None => []
                                 end) methods
       | TProcType _ ret formals =>
           flat_map (fun n => match Named_type n with
                              | Some x => owned x
                              | None => []
                              end) formals
           ++ match ret with Some x => owned x | None => [] end
       | _ => []
       end.

(** The invariant of section 3 on pointers: "every [Pointer.target] is a
    [Record] or [Array], never a primitive". *)
Definition pointerOk (t : Type_) : bool :=
  match t with
  | TPointer _ (Some x) => isRecordOrArray x
  | TPointer _ None => false
  | _ => true
  end.

Definition pointersOk (t : Type_) : bool := forallb pointerOk (owned t).

(** The invariant of section 3 on arrays, "length either fixed >= 1 or
    open = 0": an array declared without a length has [d_len = 0], and
    the length of any other is its length expression, a constant of at
    least 1, as a [quint32]. *)
Definition arrayOk (h : Heap) (t : Type_) : bool :=
  match t with
  | TArray _ len None _ => len =? 0
  | TArray _ len (Some x) _ =>
      match evalInt h x with
      | Some n => (1 <=? n) && (len =? wrap 32 n)
      | None => false
      end
  | _ => true
  end.

Definition arraysOk (h : Heap) (t : Type_) : bool :=
  forallb (arrayOk h) (owned t).



(** *** The statement checker (section 4.4.4) *)

(** Modelled from the spec: narrowing (section 4.4.4).  Inside a WITH
    branch or a type-case branch the guarded variable's "static type
    narrows to the asserted type". *)
Definition narrow (env : Env) (p : option ptr) (t : Type_) : Env :=
  match p with
  | Some a =>
      match heap env !! a with
      | Some n => withHeap env (<[a := Named_withType n (Some t)]> (heap env))
      | None => env
      end
  | None => env
  end.

Definition narrowBy (env : Env) (guard : option Expression) : Env :=
  match guard with
  | Some (EBinExpr _ op (Some v) (Some ty)) =>
      if op =? BinExpr.code BinExpr.IS then
        match denotesType env ty with
        | Some t => narrow env (getIdent v) t
        | None => env
        end
      else env
  | _ => env
  end.

Definition hasType (p : Type_ -> bool) (o : option Expression) : bool :=
  match typeOf o with
  | Some t => p t
  | None => false
  end.

(** Modelled from the spec: "[Call]: argument list matches formals."  The
    match is checked with the call expression; a designator alone is a call
    without actuals. *)
Definition callRule (what : option Expression) : list Error :=
  match what with
  | Some (EArgExpr _ op _ _) =>
      if op =? UnExpr.code UnExpr.CALL then [] else [TypeMismatch]
  | Some e =>
      match Expression_type e with
      | Some t =>
          match derefed t with
          | TProcType _ _ [] => []
          | TProcType _ _ _ => [ArityMismatch]
          | _ => [TypeMismatch]
          end
      | None => [TypeMismatch]
      end
  | None => [Other "missing operand"]
  end.

(** Modelled from the spec: "[Return v]: inside a value-returning procedure,
    [v] must be assignment-compatible with the declared return; otherwise
    [v] must be absent." *)
Definition returnRule (ret : option Type_) (what : option Expression)
    : list Error :=
  match ret, what with
  | Some rt, Some v =>
      match Expression_type v with
      | Some vt => if assignable rt vt v then [] else [AssignIncompatible]
      | None => [AssignIncompatible]
      end
  | Some _, None => [Other "the return value is missing"]
  | None, Some _ => [Other "a proper procedure returns no value"]
  | None, None => []
  end.

(** Modelled from the spec: "[Assign(l,r)]: [l] must be an lvalue ...; [r]
    must be assignment-compatible." *)
Definition assignRule (env : Env) (lhs rhs : option Expression) : list Error :=
  match lhs, rhs with
  | Some l, Some r =>
      (if isLvalue env l then [] else [Other "the target is no lvalue"])
      ++ match Expression_type l, Expression_type r with
         | Some lt, Some rt => if assignable lt rt r then [] else [AssignIncompatible]
         | _, _ => [AssignIncompatible]
         end
  | _, _ => [Other "missing operand"]
  end.

(** Modelled from the spec: "IF/WHILE guards are boolean; REPEAT until-guard
    is boolean; WITH ...  ; LOOP has no guard".  The guard of a WITH branch
    is a type test, which is boolean. *)
Definition guardRule (op : Z) (conds : list Expression) : list Error :=
  match IfLoop.of_code op with
  | Some IfLoop.LOOP =>
      if conds is [] then [] else [Other "LOOP has no guard"]
  | Some _ =>
      if forallb (fun c => hasType (isKind BaseType.BOOLEAN) (Some c)) conds
      then [] else [TypeMismatch]
  | None => [Other "invalid statement"]
  end.

Definition branchEnv (env : Env) (op : Z) (guard : option Expression) : Env :=
  if op =? IfLoop.code IfLoop.WITH then narrowBy env guard else env.

(** Modelled from the spec: "[ForLoop]: the control variable must be an
    integer local; [from], [to] integer-compatible; [by] must be a nonzero
    compile-time integer constant (defaulting to +1 when absent); the body
    must not assign the control variable." *)
Definition controlRule (env : Env) (id : option Expression) : list Error :=
  match id with
  | Some (EIdentLeaf (Some t) (Some p) _ _ _) =>
      match heap env !! p with
      | Some n =>
          match Named_kind n with
          | KLocalVar => if isInteger t then [] else [TypeMismatch]
          | _ => [Other "the control variable is no local"]
          end
      | None => [Other "the control variable is no local"]
      end
  | _ => [Other "the control variable is no local"]
  end.

Definition boundsRule (from to : option Expression) : list Error :=
  if hasType isInteger from && hasType isInteger to then [] else [TypeMismatch].

(** Modelled from the spec: the step of a FOR statement (section 4.4.4,
    "[by] must be a nonzero compile-time integer constant (defaulting to
    +1 when absent)").  The answer is the value recorded in [d_byVal],
    and the diagnostic; section 9 settles the open question of a zero
    step as "[error: for-step-zero]". *)
Definition stepRule (h : Heap) (by_ : option Expression) (byVal : Value)
    : Value * list Error :=
  match by_ with
  | None => (VInt 1, [])
  | Some b =>
      match evalInt h b with
      | Some n => if n =? 0 then (byVal, [ForStepZero]) else (VInt n, [])
      | None => (byVal, [Other "the step is no integer constant"])
      end
  end.

(** Whether a statement assigns to the variable at [p]. *)
Fixpoint assignsTo (p : ptr) (s : Statement) : bool :=
  match s with
  | SAssign (Some (EIdentLeaf _ (Some q) _ _ _)) _ => bool_decide (q = p)
  | SIfLoop _ _ thens els =>
      existsb (existsb (assignsTo p)) thens || existsb (assignsTo p) els
  | SForLoop _ _ _ _ _ body => existsb (assignsTo p) body
  | SCaseStmt _ cases els _ =>
      existsb (fun c : list Expression * list Statement =>
                 let '(_, block) := c in existsb (assignsTo p) block) cases
      || existsb (assignsTo p) els
  | _ => false
  end.

Definition bodyRule (id : option Expression) (body : list Statement)
    : list Error :=
  match id with
  | Some (EIdentLeaf _ (Some p) _ _ _) =>
      if existsb (assignsTo p) body
      then [Other "the body assigns the control variable"] else []
  | _ => []
  end.

(** Modelled from the spec: "[CaseStmt]": a scrutinee of "a record or
    pointer type" makes a type case, whose labels are type extensions of the
    scrutinee; otherwise each label is "a compile-time constant or range of
    the scrutinee's type", and "overlapping labels" are
    [case-label-overlap]. *)
Definition isTypeCase (exp : option Expression) : bool :=
  hasType (fun t => if recordOf t is Some _ then true else false) exp.

Definition labelValue (h : Heap) (e : Expression) : option Z :=
  match e with
  | ELiteral _ (VChar c) _ _ => Some c
  | _ => evalInt h e
  end.

Definition labelRange (h : Heap) (e : Expression) : option (Z * Z) :=
  match e with
  | EBinExpr _ op (Some l) (Some r) =>
      if op =? BinExpr.code BinExpr.Range then
        match labelValue h l, labelValue h r with
        | Some a, Some b => Some (a, b)
        | _, _ => None
        end
      else match labelValue h e with Some a => Some (a, a) | None => None end
  | _ => match labelValue h e with Some a => Some (a, a) | None => None end
  end.

Definition sameClass (a b : Type_) : bool :=
  (isInteger a && isInteger b) || (isChar a && isChar b)
  || (isString a && isString b) || sameType a b.

Definition labelOk (env : Env) (typeCase : bool) (exp : option Expression)
    (l : Expression) : bool :=
  match typeOf exp with
  | Some st =>
      if typeCase then
        match denotesType env l with
        | Some t => guardOk st t
        | None => false
        end
      else
        match Expression_type l with
        | Some lt =>
            sameClass st lt
            && (isString st || if labelRange (heap env) l is Some _ then true else false)
        | None => false
        end
  | None => false
  end.

Definition labelRule (env : Env) (typeCase : bool) (exp : option Expression)
    (labels : list Expression) : list Error :=
  if forallb (labelOk env typeCase exp) labels then []
  else [if typeCase then InvalidGuard else TypeMismatch].

Definition meets (a b : Z * Z) : bool :=
  (fst a <=? snd b) && (fst b <=? snd a).

Fixpoint overlapping (rs : list (Z * Z)) : bool :=
  match rs with
  | [] => false
  | r :: rs' => existsb (meets r) rs' || overlapping rs'
  end.

Definition overlapRule (h : Heap) (typeCase : bool)
    (cases : list (list Expression * list Statement)) : list Error :=
  if negb typeCase
     && overlapping (omap (labelRange h) (concat (map fst cases)))
  then [CaseLabelOverlap] else [].

Definition caseEnv (env : Env) (typeCase : bool) (exp : option Expression)
    (labels : list Expression) : Env :=
  match typeCase, exp, labels with
  | true, Some x, [l] =>
      match denotesType env l with
      | Some t => narrow env (getIdent x) t
      | None => env
      end
  | _, _, _ => env
  end.

(** Modelled from the spec: the statement checker (section 4.4.4; the
    validator is not among the sources).  [ret] is the declared return
    type of the procedure the statement stands in, [inLoop] whether it
    stands lexically inside a LOOP.  The result is the statement as the
    checker leaves it, and the diagnostics. *)
Fixpoint checkStmt (env : Env) (ret : option Type_) (inLoop : bool)
    (s : Statement) {struct s} : Statement * list Error :=
  match s with
  | SCall what =>
      let '(what', e1) := on_opt (checkExpr env CallRole false) what in
      (SCall what', e1 ++ callRule what')
  | SReturn what =>
      let '(what', e1) := on_opt (checkExpr env RhsRole false) what in
      (SReturn what', e1 ++ returnRule ret what')
  | SExit => (SExit, if inLoop then [] else [ExitOutsideLoop])
  | SAssign lhs rhs =>
      let '(lhs', e1) := on_opt (checkExpr env LhsRole false) lhs in
      let '(rhs', e2) := on_opt (checkExpr env RhsRole false) rhs in
      (SAssign lhs' rhs', e1 ++ e2 ++ assignRule env lhs' rhs')
  | SIfLoop op conds thens els =>
      let '(conds', e1) := on_list (checkExpr env RhsRole false) conds in
      let loop := inLoop || (op =? IfLoop.code IfLoop.LOOP) in
      let '(thens', e2) :=
        on_list_with
          (fun guard => on_list (checkStmt (branchEnv env op guard) ret loop))
          None thens (map Some conds') in
      let '(els', e3) := on_list (checkStmt env ret loop) els in
      (SIfLoop op conds' thens' els', e1 ++ guardRule op conds' ++ e2 ++ e3)
  | SForLoop id from to by_ byVal body =>
      let '(id', e1) := on_opt (checkExpr env LhsRole false) id in
      let '(from', e2) := on_opt (checkExpr env RhsRole false) from in
      let '(to', e3) := on_opt (checkExpr env RhsRole false) to in
      let '(by', e4) := on_opt (checkExpr env RhsRole false) by_ in
      let '(byVal', e5) := stepRule (heap env) by' byVal in
      let '(body', e6) := on_list (checkStmt env ret inLoop) body in
      (SForLoop id' from' to' by' byVal' body',
       e1 ++ e2 ++ e3 ++ e4 ++ controlRule env id' ++ boundsRule from' to'
       ++ e5 ++ e6 ++ bodyRule id' body')
  | SCaseStmt exp cases els _ =>
      let '(exp', e1) := on_opt (checkExpr env RhsRole false) exp in
      let typeCase := isTypeCase exp' in
      let '(cases', e2) :=
        on_list
          (fun c : list Expression * list Statement =>
             let '(labels, block) := c in
             let '(labels', l1) :=
               on_list (checkExpr env RhsRole (negb typeCase)) labels in
             let '(block', l2) :=
               on_list (checkStmt (caseEnv env typeCase exp' labels') ret inLoop)
                 block in
             ((labels', block'),
              l1 ++ labelRule env typeCase exp' labels' ++ l2))
          cases in
      let '(els', e3) := on_list (checkStmt env ret inLoop) els in
      (SCaseStmt exp' cases' els' typeCase,
       e1 ++ e2 ++ overlapRule (heap env) typeCase cases' ++ e3)
  end.

(** *** Checking a module *)

(** The code of a module beside the store: the body ([Scope::d_body]) of
    each of its scopes, under the scope's address, and the initializer
    of each of its constants ([Const::d_constExpr]), under the
    constant's. *)
Record Code := mkCode {
  bodies : list (ptr * StatSeq);
  inits : list (ptr * Expression)
}.

(** The declared return type of the procedure a body belongs to. *)
Definition returnTypeOf (n : Named) : option Type_ :=
  match Named_kind n, Named_type n with
  | KProcedure _, Some t =>
      match derefed t with
      | TProcType _ ret _ => ret
      | _ => None
      end
  | _, _ => None
  end.

Definition checkBody (env : Env) (b : ptr * StatSeq)
    : (ptr * StatSeq) * list Error :=
  let '(p, body) := b in
  match heap env !! p with
  | Some sc =>
      let '(body', er) :=
        on_list
          (checkStmt
             (mkEnv (heap env) sc (moduleType env) (voidType env)
                (errorType env))
             (returnTypeOf sc) false)
          body in
      ((p, body'), er)
  | None => ((p, body), [Other "the body belongs to no scope"])
  end.

Definition checkInit (env : Env) (i : ptr * Expression)
    : (ptr * Expression) * list Error :=
  let '(p, x) := i in
  let '(x', er) := checkExpr env RhsRole false x in
  ((p, x'), er).

(** Modelled from the spec: the run of the expression and statement
    checker over a module (section 4.4: it "traverses procedure bodies
    and initializers"; section 7: a module with a diagnostic "is marked
    [has-errors]").  [scope env] is the module.  The result is the code
    as the checker leaves it, the module with its mark, and the
    diagnostics. *)
Definition checkModule (env : Env) (code : Code) : Code * Named * list Error :=
  let '(bodies', e1) := on_list (checkBody env) (bodies code) in
  let '(inits', e2) := on_list (checkInit env) (inits code) in
  (mkCode bodies' inits',
   Named_withErrors (scope env)
     (Named_hasErrors (scope env) || if e1 ++ e2 is [] then false else true),
   e1 ++ e2).

(** *** The invariants of section 3 on expressions *)

Definition onOpt {X : Type} (f : X -> bool) (o : option X) : bool :=
  match o with
  | Some x => f x
  | None => true
  end.

(** Modelled from the spec: "Every expression has [type != nil]" and every
    identifier use ([IdentLeaf], [IdentSel]) has a target, throughout an
    expression. *)
Fixpoint exprOk (e : Expression) : bool :=
  match e with
  | ELiteral t _ _ _ => bool_decide (is_Some t)
  | ESetExpr t parts => bool_decide (is_Some t) && forallb exprOk parts
  | EIdentLeaf t i _ _ _ => bool_decide (is_Some t) && bool_decide (is_Some i)
  | EUnExpr t _ sub => bool_decide (is_Some t) && onOpt exprOk sub
  | EIdentSel t sub i _ _ =>
      bool_decide (is_Some t) && bool_decide (is_Some i) && onOpt exprOk sub
  | EArgExpr t _ sub args =>
      bool_decide (is_Some t) && onOpt exprOk sub && forallb exprOk args
  | EBinExpr t _ lhs rhs =>
      bool_decide (is_Some t) && onOpt exprOk lhs && onOpt exprOk rhs
  end.

(** The same over every expression of a statement. *)
Fixpoint stmtOk (s : Statement) : bool :=
  match s with
  | SCall what => onOpt exprOk what
  | SReturn what => onOpt exprOk what
  | SExit => true
  | SAssign lhs rhs => onOpt exprOk lhs && onOpt exprOk rhs
  | SIfLoop _ conds thens els =>
      forallb exprOk conds && forallb (forallb stmtOk) thens
      && forallb stmtOk els
  | SForLoop id from to by_ _ body =>
      onOpt exprOk id && onOpt exprOk from && onOpt exprOk to
      && onOpt exprOk by_ && forallb stmtOk body
  | SCaseStmt exp cases els _ =>
      onOpt exprOk exp
      && forallb (fun c : list Expression * list Statement =>
                    let '(labels, block) := c in
                    forallb exprOk labels && forallb stmtOk block) cases
      && forallb stmtOk els
  end.

(** And over the code of a module. *)
Definition codeOk (c : Code) : bool :=
  forallb (fun b : ptr * StatSeq => forallb stmtOk (snd b)) (bodies c)
  && forallb (fun i : ptr * Expression => exprOk (snd i)) (inits c).

(** The nodes of an expression, the expression itself first. *)
Fixpoint nodes (e : Expression) : list Expression :=
  e :: match e with
       | ELiteral _ _ _ _ | EIdentLeaf _ _ _ _ _ => []
       | ESetExpr _ parts => flat_map nodes parts
       | EUnExpr _ _ sub | EIdentSel _ sub _ _ _ =>
           match sub with Some x => nodes x | None => [] end
       | EArgExpr _ _ sub args =>
           match sub with Some x => nodes x | None => [] end
           ++ flat_map nodes args
       | EBinExpr _ _ lhs rhs =>
           match lhs with Some x => nodes x | None => [] end
           ++ match rhs with Some x => nodes x | None => [] end
       end.

Definition optList {X : Type} (o : option X) : list X :=
  match o with
  | Some x => [x]
  | None => []
  end.



(** *** Reading a node *)

(** [ForLoop::d_byVal] and [ForLoop::d_by]. *)
Definition ForLoop_byVal (s : Statement) : option Value :=
  match s with
  | SForLoop _ _ _ _ byVal _ => Some byVal
  | _ => None
  end.

Definition ForLoop_by (s : Statement) : option (option Expression) :=
  match s with
  | SForLoop _ _ _ by_ _ _ => Some by_
  | _ => None
  end.

(** [Array::d_len]. *)
Definition Array_len (t : Type_) : option Z :=
  match t with
  | TArray _ len _ _ => Some len
  | _ => None
  end.


(** *** What a pass establishes *)




End FrontEnd.

(** ** The file-buffer primitives of the Oberon System runtime *)

Module ObsFiles.

Section Primitives.

(** [QBuffer] is Qt's in-memory I/O device; the binding uses it through
    [seek], [pos] and [size].  [seek b p] is whether [b.seek(p)] succeeded,
    with the buffer as the call leaves it. *)
Variable QBuffer : Type.
Variable seek : QBuffer -> Z -> bool * QBuffer.
Variable pos : QBuffer -> Z.
Variable size : QBuffer -> Z.

(** [struct FileBuffer { QBuffer* d_buf; };] *)
Record FileBuffer := mkFileBuffer { d_buf : option QBuffer }.

(** A line written through [qWarning()]. *)
Inductive Message :=
| CouldNotSeekTo (requested current length : Z).

(** What a primitive leaves behind: the value it returns ([int] holding
    [true] or [false]), the file buffer, and the warnings it printed. *)
Record Outcome := mkOutcome {
  result : bool;
  buffer : FileBuffer;
  warnings : list Message
}.

(** [ObsFiles_setPos( FileBuffer* fb, int pos )].  The [int] position is
    widened to [qint64] for [seek], which keeps its value. *)
Definition ObsFiles_setPos (fb : FileBuffer) (pos_ : Z) : Outcome :=
  match d_buf fb with
  | Some b =>
      let pos_ := if pos_ <? 0 then 0 else pos_ in
      let '(ok, b') := seek b pos_ in
      if negb ok
      then mkOutcome false (mkFileBuffer (Some b'))
             [CouldNotSeekTo pos_ (pos b') (size b')]
      else mkOutcome true (mkFileBuffer (Some b')) []
  | None => mkOutcome false fb []
  end.

(** [ObsFiles_getPos] and [ObsFiles_length]: zero without a buffer.  The
    [qint64] that Qt answers is narrowed to the [int], respectively the
    [uint32_t], that the primitive returns. *)
Definition ObsFiles_getPos (fb : FileBuffer) : Z :=
  match d_buf fb with
  | Some b => wrap 32 (pos b + 2 ^ 31) - 2 ^ 31
  | None => 0
  end.

Definition ObsFiles_length (fb : FileBuffer) : Z :=
  match d_buf fb with
  | Some b => wrap 32 (size b)
  | None => 0
  end.

End Primitives.

(** A buffer to run the primitives on: the bytes, the cursor, and whether
    the device is open.  Seeking an open read-write buffer succeeds for
    every position from zero on, and a position past the end pads the
    bytes with zeros up to it; seeking fails on a closed device and on a
    negative position. *)
Record MemBuffer := mkMemBuffer {
  bytes : list Z;
  cursor : Z;
  is_open : bool
}.

Definition mem_size (b : MemBuffer) : Z := Z.of_nat (length (bytes b)).

Definition mem_seek (b : MemBuffer) (p : Z) : bool * MemBuffer :=
  if is_open b && (0 <=? p)
  then (true,
        mkMemBuffer
          (bytes b ++ repeat 0 (Z.to_nat (p - mem_size b))) p true)
  else (false, b).

End ObsFiles.

(** ** ObxAst.h: tags and the module an expression comes from *)

Module Members.
Import Obx.

(** The values of the enumerators of [Thing::Tag]. *)
Definition Tag_code (t : Thing.Tag) : Z :=
  match t with
  | Thing.T_Thing => 0 | Thing.T_Module => 1 | Thing.T_Import => 2
  | Thing.T_Pointer => 3 | Thing.T_Record => 4 | Thing.T_BaseType => 5
  | Thing.T_Array => 6 | Thing.T_ProcType => 7 | Thing.T_NamedType => 8
  | Thing.T_ArgExpr => 9 | Thing.T_Literal => 10 | Thing.T_SetExpr => 11
  | Thing.T_IdentLeaf => 12 | Thing.T_UnExpr => 13 | Thing.T_IdentSel => 14
  | Thing.T_BinExpr => 15 | Thing.T_Field => 16 | Thing.T_Const => 17
  | Thing.T_BuiltIn => 18 | Thing.T_Parameter => 19 | Thing.T_Return => 20
  | Thing.T_Procedure => 21 | Thing.T_Variable => 22 | Thing.T_LocalVar => 23
  | Thing.T_QualiType => 24 | Thing.T_Call => 25 | Thing.T_Assign => 26
  | Thing.T_IfLoop => 27 | Thing.T_ForLoop => 28 | Thing.T_CaseStmt => 29
  | Thing.T_Scope => 30 | Thing.T_Enumeration => 31
  | Thing.T_GenericName => 32 | Thing.T_Exit => 33 | Thing.T_MAX => 34
  end.

(** [getTag] as the subclasses of [Statement] override it. *)
Definition Statement_getTag (s : Statement) : Thing.Tag :=
  match s with
  | SCall _ => Thing.T_Call
  | SReturn _ => Thing.T_Return
  | SExit => Thing.T_Exit
  | SAssign _ _ => Thing.T_Assign
  | SIfLoop _ _ _ _ => Thing.T_IfLoop
  | SForLoop _ _ _ _ _ _ => Thing.T_ForLoop
  | SCaseStmt _ _ _ _ => Thing.T_CaseStmt
  end.

(** An object of one of the node classes, those that override
    [getTag]. *)
Inductive Node :=
| NType (t : Type_)
| NNamed (n : Named)
| NExpression (e : Expression)
| NStatement (s : Statement).

(** [virtual int Thing::getTag() const], through the object's class. *)
Definition getTag (x : Node) : Thing.Tag :=
  match x with
  | NType t => Type_getTag t
  | NNamed n => Named_getTag n
  | NExpression e => Expression_getTag e
  | NStatement s => Statement_getTag s
  end.



(** [const char* getTagName() const { return s_tagName[getTag()]; }]:
    [s_tagName] is the array of names, defined with the class; an index
    outside it has no defined answer. *)
Definition getTagName (s_tagName : list string) (x : Node) : option string :=
  s_tagName !! Z.to_nat (Tag_code (getTag x)).

(** [Expression::getModule]: null by default; [IdentLeaf] answers
    [d_mod]; [UnExpr] (with it [IdentSel] and [ArgExpr]) asks [d_sub] and
    answers null without one; [BinExpr] asks [d_lhs] if it is set,
    otherwise [d_rhs] if that is set. *)
Fixpoint getModule (e : Expression) : option ptr :=
  match e with
  | EIdentLeaf _ _ _ _ d_mod => d_mod
  | EUnExpr _ _ d_sub | EIdentSel _ d_sub _ _ _ | EArgExpr _ _ d_sub _ =>
      match d_sub with
      | Some sub => getModule sub
      | None => None
      end
  | EBinExpr _ _ d_lhs d_rhs =>
      match d_lhs with
      | Some lhs => getModule lhs
      | None =>
          match d_rhs with
          | Some rhs => getModule rhs
          | None => None
          end
      end
  | ELiteral _ _ _ _ | ESetExpr _ _ => None
  end.

(** [Expression::visibilityFor]: [Named::NotApplicable] by default;
    [IdentLeaf] answers [Named::ReadWrite] ("leaf is local or import
    name"); [UnExpr] (with it [ArgExpr]) asks [d_sub] and answers
    [NotApplicable] without one.  [IdentSel::visibilityFor] is declared
    here and defined with the checker: it is [IdentSel_visibilityFor]. *)
Section Visibility.

Variable IdentSel_visibilityFor : Expression -> option ptr -> Z.

Fixpoint visibilityFor (e : Expression) (m : option ptr) : Z :=
  match e with
  | EIdentLeaf _ _ _ _ _ => Visibility_code ReadWrite
  | EIdentSel _ _ _ _ _ => IdentSel_visibilityFor e m
  | EUnExpr _ _ d_sub | EArgExpr _ _ d_sub _ =>
      match d_sub with
      | Some sub => visibilityFor sub m
      | None => Visibility_code NotApplicable
      end
  | ELiteral _ _ _ _ | ESetExpr _ _ | EBinExpr _ _ _ _ =>
      Visibility_code NotApplicable
  end.

End Visibility.

End Members.

(** ** ObsFiles: buffers, files and the disk image *)

Module Runtime.
Import ObsFiles.

(** *** Conversions and messages *)

(** A value converted to [char], which holds eight bits and is signed or
    not as the platform has it, and to [quint8]. *)
Definition to_char (char_is_signed : bool) (v : Z) : Z :=
  if char_is_signed then wrap 8 (v + 128) - 128 else wrap 8 v.

Definition to_quint8 (v : Z) : Z := wrap 8 v.

(** A line sent to [qDebug()], [qWarning()] or [qCritical()]: the text
    and the name streamed after it. *)
Inductive Severity := Debug | Warning | Critical.

Record Line := mkLine {
  severity : Severity;
  text : string;
  subject : option string
}.

(** [enum { SECLEN = 1024 };] *)
Definition SECLEN : Z := 1024.

(** Writing [src] into the array [dst] from index [off] on; there is no
    defined result when the bytes do not fit. *)
Definition store (dst : list Z) (off : Z) (src : list Z) : option (list Z) :=
  if (0 <=? off) && (off + Z.of_nat (length src) <=? Z.of_nat (length dst))
  then Some (take (Z.to_nat off) dst ++ src
             ++ drop (Z.to_nat off + length src) dst)
  else None.

(** [::memset(dst + off, 0, n)]. *)
Definition memset0 (dst : list Z) (off n : Z) : option (list Z) :=
  if 0 <=? n then store dst off (repeat 0 (Z.to_nat n)) else None.

(** *** File buffers *)

Section Buffers.

(** The members of [QBuffer] the primitives call.  [new_QBuffer] is the
    state of an object made by [new QBuffer()]; [open] is
    [open(QIODevice::ReadWrite)], whose answer no caller reads; [putChar]
    and [getChar] pass a [char]. *)
Variable QBuffer : Type.
Variable new_QBuffer : QBuffer.
Variable open : QBuffer -> QBuffer.
Variable close : QBuffer -> QBuffer.
Variable data : QBuffer -> list Z.
Variable setData : QBuffer -> list Z -> QBuffer.
Variable seek : QBuffer -> Z -> bool * QBuffer.
Variable pos : QBuffer -> Z.
Variable size : QBuffer -> Z.
Variable atEnd : QBuffer -> bool.
Variable putChar : QBuffer -> Z -> bool * QBuffer.
Variable getChar : QBuffer -> option Z * QBuffer.
Variable char_is_signed : bool.

(** [setBuffer( FileBuffer* fb, QBuffer* b )]: the buffer [fb] held, if
    any, is deleted; the result lists what was deleted. *)
Definition setBuffer (fb : FileBuffer QBuffer) (b : option QBuffer)
    : FileBuffer QBuffer * list QBuffer :=
  (mkFileBuffer QBuffer b,
   match d_buf QBuffer fb with
   | Some old => [old]
   | None => []
   end).

(** [ObsFiles_newFile( FileBuffer* fb )]. *)
Definition ObsFiles_newFile (fb : FileBuffer QBuffer)
    : bool * FileBuffer QBuffer * list QBuffer :=
  let b := new_QBuffer in
  let '(fb, deleted) := setBuffer fb (Some b) in
  (true, mkFileBuffer QBuffer (Some (open b)), deleted).

(** [ObsFiles_freeFile( FileBuffer* fb )]. *)
Definition ObsFiles_freeFile (fb : FileBuffer QBuffer)
    : FileBuffer QBuffer * list QBuffer :=
  setBuffer fb None.

(** [ObsFiles_atEnd( FileBuffer* fb )]. *)
Definition ObsFiles_atEnd (fb : FileBuffer QBuffer) : bool :=
  match d_buf QBuffer fb with
  | Some b => atEnd b
  | None => false
  end.

(** [ObsFiles_writeByte( FileBuffer* fb, uint32_t byte )]:
    [putChar( (char) (byte & 0xff) )]. *)
Definition ObsFiles_writeByte (fb : FileBuffer QBuffer) (byte : Z)
    : bool * FileBuffer QBuffer :=
  match d_buf QBuffer fb with
  | Some b =>
      let '(ok, b) := putChar b (to_char char_is_signed (Z.land byte 255)) in
      (ok, mkFileBuffer QBuffer (Some b))
  | None => (false, fb)
  end.

(** [ObsFiles_readByte( FileBuffer* fb )]: [(quint8)ch] when [getChar]
    delivers a character, zero otherwise. *)
Definition ObsFiles_readByte (fb : FileBuffer QBuffer)
    : Z * FileBuffer QBuffer :=
  match d_buf QBuffer fb with
  | Some b =>
      let '(ch, b) := getChar b in
      (match ch with
       | Some ch => to_quint8 ch
       | None => 0
       end,
       mkFileBuffer QBuffer (Some b))
  | None => (0, fb)
  end.

(** *** Files of the root directory *)

(** The directory the primitives work in, through [QDir], [QFile] and
    [QFileInfo]: [FS] is the state of the file system.  [openRead] is
    [open(QIODevice::ReadOnly)] followed by [readAll()], with no answer when
    the file does not open; [openWrite] is [open(QIODevice::WriteOnly)];
    [fwrite fs path opened bytes] is [write(bytes)] on the [QFile] for
    [path], which did or did not open; [remove] and [rename] are those of
    the [QDir]. *)
Variable FS : Type.
Variable currentPath : string.
Variable absoluteFilePath : string -> string -> string.
Variable isFile : FS -> string -> bool.
Variable exists_ : FS -> string -> bool.
Variable openRead : FS -> string -> option (list Z).
Variable openWrite : FS -> string -> bool * FS.
Variable fwrite : FS -> string -> bool -> list Z -> FS.
Variable remove : FS -> string -> string -> bool * FS.
Variable rename : FS -> string -> string -> string -> bool * FS.

(** [getPath()]: [s_root], or the current directory while [s_root] is
    empty. *)
Definition getPath (s_root : string) : string :=
  if bool_decide (s_root = "") then currentPath else s_root.

(** What a primitive that touches both leaves behind. *)
Record Saved := mkSaved {
  answer : bool;
  held : FileBuffer QBuffer;
  deleted : list QBuffer;
  files : FS;
  lines : list Line
}.

(** [ObsFiles_openFile( CharArray filename, FileBuffer* fb )]. *)
Definition ObsFiles_openFile (fs : FS) (s_root filename : string)
    (fb : FileBuffer QBuffer) : Saved :=
  let path := absoluteFilePath (getPath s_root) filename in
  if negb (isFile fs path) then mkSaved false fb [] fs []
  else if exists_ fs path then
    match openRead fs path with
    | None =>
        mkSaved false fb [] fs
          [mkLine Warning "*** could not open for reading" (Some path)]
    | Some content =>
        let b := new_QBuffer in
        let '(fb, deleted) := setBuffer fb (Some b) in
        mkSaved true (mkFileBuffer QBuffer (Some (open (setData b content))))
          deleted fs []
    end
  else mkSaved false fb [] fs [].

(** [ObsFiles_saveFile( CharArray filename, FileBuffer* fb )]: the buffer
    is closed and replaced by a new one before [f.write(fb->d_buf->data())]
    runs, so [fb->d_buf] is the new buffer there. *)
Definition ObsFiles_saveFile (fs : FS) (s_root filename : string)
    (fb : FileBuffer QBuffer) : Saved :=
  let path := absoluteFilePath (getPath s_root) filename in
  match d_buf QBuffer fb with
  | Some old =>
      let '(opened, fs) := openWrite fs path in
      let warned :=
        if negb opened
        then [mkLine Warning "*** could not open for writing" (Some path)]
        else [] in
      let fb := mkFileBuffer QBuffer (Some (close old)) in
      let b := new_QBuffer in
      let '(fb, deleted) := setBuffer fb (Some b) in
      let fs := fwrite fs path opened (data b) in
      mkSaved true (mkFileBuffer QBuffer (Some (open b))) deleted fs warned
  | None => mkSaved false fb [] fs []
  end.

(** [ObsFiles_removeFile( CharArray filename )]. *)
Definition ObsFiles_removeFile (fs : FS) (s_root filename : string)
    : bool * FS :=
  remove fs (getPath s_root) filename.

(** [ObsFiles_renameFile( CharArray oldName, CharArray newName )]. *)
Definition ObsFiles_renameFile (fs : FS) (s_root oldName newName : string)
    : bool * FS :=
  let dir := getPath s_root in
  if negb (exists_ fs (absoluteFilePath dir oldName)) then (false, fs)
  else if exists_ fs (absoluteFilePath dir newName) then
    let '(_, fs) := remove fs dir newName in
    rename fs dir oldName newName
  else rename fs dir oldName newName.

End Buffers.

(** *** The disk image *)

Section Disk.

(** The members of [QFile] that [s_disk] is used through.  [read] is
    [QByteArray read(qint64)]; [readInto d n] is [read(char*, n)]: the
    count it answers and the bytes it stored at the start of the array;
    [write] answers the count written.  [entryList dir] is the sorted list
    of the [*.dsk] files of [dir]. *)
Variable QFile : Type.
Variable isOpen : QFile -> bool.
Variable setFileName : QFile -> string -> QFile.
Variable fileName : QFile -> string.
Variable openReadWrite : QFile -> bool * QFile.
Variable read : QFile -> Z -> list Z * QFile.
Variable readInto : QFile -> Z -> Z * list Z * QFile.
Variable write : QFile -> list Z -> Z * QFile.
Variable closeFile : QFile -> QFile.
Variable seekFile : QFile -> Z -> bool * QFile.
Variable entryList : string -> list string.
Variable currentPath : string.
Variable char_is_signed : bool.

(** [hdr[i]] on a [const QByteArray]: a [char]. *)
Definition at_ (hdr : list Z) (i : nat) : Z :=
  to_char char_is_signed (nth i hdr 0).

(** The test on the first four bytes of a disk file:
    [hdr.size() != 4 || hdr[0] != 0x8d || hdr[1] != 0xa3 || hdr[2] != 0x1e
     || hdr[3] != 0x9b]. *)
Definition invalidHeader (hdr : list Z) : bool :=
  negb (Z.of_nat (length hdr) =? 4)
  || negb (at_ hdr 0 =? 0x8d) || negb (at_ hdr 1 =? 0xa3)
  || negb (at_ hdr 2 =? 0x1e) || negb (at_ hdr 3 =? 0x9b).

(** The part of [seekSector] that runs while [s_disk] is not open. *)
Definition findDisk (s_disk : QFile) (s_root : string) : QFile * list Line :=
  let files := entryList (getPath currentPath s_root) in
  match last files with
  | Some name =>
      let s_disk := setFileName s_disk name in
      let '(opened, s_disk) := openReadWrite s_disk in
      if negb opened
      then (s_disk,
            [mkLine Critical "cannot open disk file" (Some (fileName s_disk))])
      else
        let '(hdr, s_disk) := read s_disk 4 in
        if invalidHeader hdr
        then (closeFile s_disk,
              [mkLine Critical "invalid disk format" (Some (fileName s_disk))])
        else (s_disk,
              [mkLine Debug "using disk file" (Some (fileName s_disk))])
  | None => (s_disk, [mkLine Critical "cannot find disk file" None])
  end.

(** [seekSector(int sector)]. *)
Definition seekSector (s_disk : QFile) (s_root : string) (sector : Z)
    : bool * QFile * list Line :=
  let sector := sector - 0x80002 in
  let '(s_disk, said) :=
    if negb (isOpen s_disk) then findDisk s_disk s_root else (s_disk, []) in
  let '(ok, s_disk) := seekFile s_disk sector in
  (ok, s_disk, said).

(** [ObsFiles_readSector(int sector, uint8_t* data )]: the array as the
    call leaves it. *)
Definition ObsFiles_readSector (s_disk : QFile) (s_root : string)
    (sector : Z) (data_ : list Z) : option (list Z) * QFile * list Line :=
  let '(ok, s_disk, said) := seekSector s_disk s_root sector in
  if negb ok then (memset0 data_ 0 SECLEN, s_disk, said)
  else
    let '(res, got, s_disk) := readInto s_disk SECLEN in
    (match store data_ 0 got with
     | Some data_ =>
         if negb (res =? SECLEN) then
           if res <? 0 then memset0 data_ 0 SECLEN
           else memset0 data_ res (SECLEN - res)
         else Some data_
     | None => None
     end, s_disk, said).

(** [ObsFiles_writeSector(int sector, uint8_t* data )]. *)
Definition ObsFiles_writeSector (s_disk : QFile) (s_root : string)
    (sector : Z) (data_ : list Z) : QFile * list Line :=
  let '(ok, s_disk, said) := seekSector s_disk s_root sector in
  if ok then
    let '(res, s_disk) := write s_disk (take (Z.to_nat SECLEN) data_) in
    (s_disk,
     said ++
     if negb (res =? SECLEN)
     then [mkLine Critical "error writing to disk file"
             (Some (fileName s_disk))]
     else [])
  else (s_disk, said).

End Disk.

End Runtime.

(** ** Devices to run the primitives on *)

(** A buffer, a directory and a disk file in memory, to run [Runtime]'s
    primitives on: a file is its bytes, a directory maps the path of each
    file to its content. *)
Module Mem.
Import ObsFiles Runtime.

Definition mem_new : MemBuffer := mkMemBuffer [] 0 false.

Definition mem_open (b : MemBuffer) : MemBuffer := mkMemBuffer (bytes b) 0 true.

Definition mem_close (b : MemBuffer) : MemBuffer :=
  mkMemBuffer (bytes b) 0 false.

Definition mem_setData (b : MemBuffer) (content : list Z) : MemBuffer :=
  mkMemBuffer content 0 (is_open b).

(** [putChar] overwrites the byte at the cursor, or appends at the end. *)
Definition mem_putChar (b : MemBuffer) (ch : Z) : bool * MemBuffer :=
  if is_open b
  then (true,
        mkMemBuffer
          (take (Z.to_nat (cursor b)) (bytes b) ++ [wrap 8 ch]
           ++ drop (S (Z.to_nat (cursor b))) (bytes b))
          (cursor b + 1) true)
  else (false, b).

Definition mem_getChar (char_is_signed : bool) (b : MemBuffer)
    : option Z * MemBuffer :=
  if is_open b then
    match bytes b !! Z.to_nat (cursor b) with
    | Some byte =>
        (Some (to_char char_is_signed byte),
         mkMemBuffer (bytes b) (cursor b + 1) true)
    | None => (None, b)
    end
  else (None, b).

(** The directory. *)
Abbreviation Dir := (gmap string (list Z)).

Definition dir_path (dir name : string) : string := dir +:+ "/" +:+ name.

Definition dir_exists (fs : Dir) (path : string) : bool :=
  bool_decide (is_Some (fs !! path)).

Definition dir_openRead (fs : Dir) (path : string) : option (list Z) :=
  fs !! path.

Definition dir_openWrite (fs : Dir) (path : string) : bool * Dir :=
  (true, <[path := []]> fs).

Definition dir_fwrite (fs : Dir) (path : string) (opened : bool)
    (content : list Z) : Dir :=
  if opened then <[path := default [] (fs !! path) ++ content]> fs else fs.

Definition dir_remove (fs : Dir) (dir name : string) : bool * Dir :=
  if dir_exists fs (dir_path dir name)
  then (true, delete (dir_path dir name) fs)
  else (false, fs).

(** Renaming fails without the source and onto an existing file. *)
Definition dir_rename (fs : Dir) (dir oldName newName : string) : bool * Dir :=
  match fs !! dir_path dir oldName with
  | Some content =>
      if dir_exists fs (dir_path dir newName) then (false, fs)
      else (true,
            <[dir_path dir newName := content]>
              (delete (dir_path dir oldName) fs))
  | None => (false, fs)
  end.

(** A disk file: the image it opens on, what it holds once open, and
    the cursor. *)
Record MemFile := mkMemFile {
  image : list Z;
  name : string;
  at_byte : Z;
  opened : bool
}.

Definition file_setFileName (f : MemFile) (n : string) : MemFile :=
  mkMemFile (image f) n (at_byte f) (opened f).

Definition file_open (f : MemFile) : bool * MemFile :=
  (true, mkMemFile (image f) (name f) 0 true).

Definition file_close (f : MemFile) : MemFile :=
  mkMemFile (image f) (name f) 0 false.

Definition file_seek (f : MemFile) (p : Z) : bool * MemFile :=
  if opened f && (0 <=? p) && (p <=? Z.of_nat (length (image f)))
  then (true, mkMemFile (image f) (name f) p true)
  else (false, f).

Definition file_read (f : MemFile) (n : Z) : list Z * MemFile :=
  if opened f then
    let got := take (Z.to_nat n) (drop (Z.to_nat (at_byte f)) (image f)) in
    (got, mkMemFile (image f) (name f) (at_byte f + Z.of_nat (length got)) true)
  else ([], f).

Definition file_readInto (f : MemFile) (n : Z) : Z * list Z * MemFile :=
  if opened f then
    let got := take (Z.to_nat n) (drop (Z.to_nat (at_byte f)) (image f)) in
    (Z.of_nat (length got), got,
     mkMemFile (image f) (name f) (at_byte f + Z.of_nat (length got)) true)
  else (-1, [], f).

(** The primitives on these devices.  The working directory holds one
    disk file, [Oberon.dsk]; [char] is unsigned unless said otherwise. *)
Definition seekSector (char_is_signed : bool) :=
  Runtime.seekSector MemFile opened file_setFileName name file_open file_read
    file_close file_seek (fun _ => ["Oberon.dsk"%string]) "."%string
    char_is_signed.

Definition readSector :=
  Runtime.ObsFiles_readSector MemFile opened file_setFileName name file_open
    file_read file_readInto file_close file_seek
    (fun _ => ["Oberon.dsk"%string]) "."%string false.

Definition renameFile :=
  Runtime.ObsFiles_renameFile Dir "."%string dir_path dir_exists dir_remove
    dir_rename.

Definition saveFile :=
  Runtime.ObsFiles_saveFile MemBuffer mem_new mem_open mem_close bytes Dir
    "."%string dir_path dir_openWrite dir_fwrite.

Definition openFile :=
  Runtime.ObsFiles_openFile MemBuffer mem_new mem_open mem_setData Dir
    "."%string dir_path dir_exists dir_exists dir_openRead.

Definition writeByte (char_is_signed : bool) :=
  Runtime.ObsFiles_writeByte MemBuffer mem_putChar char_is_signed.

Definition readByte (char_is_signed : bool) :=
  Runtime.ObsFiles_readByte MemBuffer (mem_getChar char_is_signed).

(** A disk file of seven bytes, the header and [1; 2; 3], not yet open. *)
Definition disk : MemFile :=
  mkMemFile [0x8d; 0xa3; 0x1e; 0x9b; 1; 2; 3] "" 0 false.

(** A directory with the files [a] and [b]. *)
Definition two_files : Dir :=
  <[dir_path "." "a" := [1; 2]]> (<[dir_path "." "b" := [3]]> ∅).

End Mem.

Import Obx.

(** * The data model as the specification words it *)


(** The binary operators the specification lists: range, the six
    relations, IN, IS, the add operators and the mul operators
    [*], DIV, MOD, [&]. *)
Definition listed_binary_ops : list BinExpr.Op :=
  [BinExpr.Range;
   BinExpr.EQ; BinExpr.NEQ; BinExpr.LT; BinExpr.LEQ; BinExpr.GT; BinExpr.GEQ;
   BinExpr.IN; BinExpr.IS;
   BinExpr.ADD; BinExpr.SUB; BinExpr.OR;
   BinExpr.MUL; BinExpr.DIV; BinExpr.MOD; BinExpr.AND].

(** The operator a [BinExpr] node holds, when its tag is an enumerator. *)
Definition BinExpr_op (e : Expression) : option BinExpr.Op :=
  match e with
  | EBinExpr _ d_op _ _ => BinExpr.of_code d_op
  | _ => None
  end.

(** A [BinExpr] node is well formed when its tag is an enumerator other
    than [Invalid], the value the default constructor leaves in it. *)
Definition BinExpr_well_formed (e : Expression) : bool :=
  match BinExpr_op e with
  | Some BinExpr.Invalid | None => false
  | Some _ => true
  end.

(** [x / y] on two real literals. *)
Definition real_quotient : Expression :=
  EBinExpr None (BinExpr.code BinExpr.FDIV)
    (Some (new_Literal Literal.Real (VReal 0) None))
    (Some (new_Literal Literal.Real (VReal 1) None)).

(** * Sample programs *)

(** The module

    MODULE M;
      CONST N = 10;
      TYPE P = POINTER TO R;
           R = RECORD next: P; val: INTEGER END;
           L = RECORD next: POINTER TO L END;
      VAR x: INTEGER;
      PROCEDURE Q; VAR i: INTEGER; ... END Q;
    END M.

    as the parser and the declaration pass leave it.  [INTEGER] is
    declared in the module's own scope to keep the sample in one scope. *)
Module Sample.
Import FrontEnd.

Definition INT : Type_ := baseType BaseType.INTEGER.

Definition lit (z : Z) : Expression :=
  new_Literal Literal.Integer (VInt z) None.

Definition leaf (name : string) : Expression :=
  EIdentLeaf None None name NoRole None.

Definition bin (op : BinExpr.Op) (a b : Expression) : Expression :=
  EBinExpr None (BinExpr.code op) (Some a) (Some b).

Definition quali (name : string) : Type_ :=
  TQualiType None (Some (leaf name)) false.

Definition field (a : ptr) (name : string) (t : Type_) : Named :=
  new_Named a name (Some t) None (KField false).

Arguments field a%_positive name%_string t.

Definition noScope : Scope := mkScope ∅ [].

Definition R_type : Type_ :=
  TRecord (Some 4%positive) None
    [field 10 "next" (quali "P"); field 11 "val" (quali "INTEGER")] [].

Definition P_type : Type_ := TPointer (Some 5%positive) (Some (quali "R")).

Definition L_type : Type_ :=
  TRecord (Some 9%positive) None
    [field 12 "next" (TPointer None (Some (quali "L")))] [].

Definition M_scope : Scope :=
  mkScope
    (list_to_map
       [("x", 2%positive); ("N", 3%positive); ("R", 4%positive);
        ("P", 5%positive); ("Q", 6%positive); ("INTEGER", 8%positive);
        ("L", 9%positive)])
    [3; 5; 4; 9; 2; 6; 8]%positive.

Definition M : Named := new_Named 1 "M" None None (KModule M_scope).

Definition Q_scope : Scope :=
  mkScope (list_to_map [("i", 7%positive)]) [7%positive].

Definition Q : Named :=
  new_Named 6 "Q" (Some (TProcType None None [])) (Some 1%positive)
    (KProcedure Q_scope).

Definition store : Heap :=
  list_to_map
    [(1%positive, M);
     (2%positive, new_Named 2 "x" (Some INT) (Some 1%positive) KVariable);
     (3%positive, new_Named 3 "N" (Some INT) (Some 1%positive)
                    (KConst (VInt 10) (Literal.code Literal.Integer)));
     (4%positive, new_Named 4 "R" (Some R_type) (Some 1%positive)
                    (KNamedType noScope));
     (5%positive, new_Named 5 "P" (Some P_type) (Some 1%positive)
                    (KNamedType noScope));
     (6%positive, Q);
     (7%positive, new_Named 7 "i" (Some INT) (Some 6%positive) KLocalVar);
     (8%positive, new_Named 8 "INTEGER" (Some INT) (Some 1%positive)
                    (KNamedType noScope));
     (9%positive, new_Named 9 "L" (Some L_type) (Some 1%positive)
                    (KNamedType noScope))].

(** The checker's environment in the module and in [Q]. *)
Definition env : Env :=
  mkEnv store M (baseType BaseType.ANY) (baseType BaseType.NIL) None.

Definition envQ : Env :=
  mkEnv store Q (baseType BaseType.ANY) (baseType BaseType.NIL) None.

(** [1+2*3]. *)
Definition seven : Expression :=
  bin BinExpr.ADD (lit 1) (bin BinExpr.MUL (lit 2) (lit 3)).

(** [FOR i := 0 TO N DO x := i END] and [FOR i := 0 TO 9 BY 1-1 DO END]. *)
Definition loop : Statement :=
  SForLoop (Some (leaf "i")) (Some (lit 0)) (Some (leaf "N")) None VNone
    [SAssign (Some (leaf "x")) (Some (leaf "i"))].

Definition stuck_loop : Statement :=
  SForLoop (Some (leaf "i")) (Some (lit 0)) (Some (lit 9))
    (Some (bin BinExpr.SUB (lit 1) (lit 1))) VNone [].

(** The code of [M]: the body of [Q] is [loop], and [N]'s initializer
    is [10]. *)
Definition code : Code :=
  mkCode [(6%positive, [loop])] [(3%positive, lit 10)].

(** The same with a use of an undeclared [y] in the body. *)
Definition broken_code : Code :=
  mkCode [(6%positive, [SAssign (Some (leaf "x")) (Some (leaf "y"))])] [].

(** An open file buffer holding three bytes, and a closed one. *)
Definition open_file : ObsFiles.FileBuffer ObsFiles.MemBuffer :=
  ObsFiles.mkFileBuffer _ (Some (ObsFiles.mkMemBuffer [1; 2; 3] 2 true)).

Definition closed_file : ObsFiles.FileBuffer ObsFiles.MemBuffer :=
  ObsFiles.mkFileBuffer _ (Some (ObsFiles.mkMemBuffer [1; 2; 3] 2 false)).

Definition setPos :=
  ObsFiles.ObsFiles_setPos ObsFiles.MemBuffer ObsFiles.mem_seek
    ObsFiles.cursor ObsFiles.mem_size.

End Sample.

(** * Properties *)

(** ** Enumerations and flags of the data model *)

Lemma BaseType_code_of_code (k : BaseType.Kind) :
  BaseType.of_code (BaseType.code k) = Some k.
Proof. by destruct k. Qed.




Lemma BinExpr_code_of_code (op : BinExpr.Op) :
  BinExpr.of_code (BinExpr.code op) = Some op.
Proof. by destruct op. Qed.

Lemma BinExpr_of_code_inv (c : Z) (op : BinExpr.Op) :
  BinExpr.of_code c = Some op -> c = BinExpr.code op.
Proof.
  unfold BinExpr.of_code.
  destruct c as [|p|p]; try discriminate; [by intros [= <-]|].
  do 5 (try destruct p as [p|p|]); try discriminate;
    by intros [= <-].
Qed.

(** C2, as stated, fails: real division [/] is a binary operator of the
    AST ([BinExpr::FDIV], listed among the mul operators in the source),
    a node holding it is well formed, and it is none of the listed
    operators. *)
Lemma BinExpr_FDIV_is_not_listed :
  BinExpr_well_formed real_quotient = true
  /\ BinExpr_op real_quotient = Some BinExpr.FDIV
  /\ ~ In BinExpr.FDIV listed_binary_ops.
Proof.
  split; [reflexivity|]. split; [reflexivity|].
  simpl. intuition discriminate.
Qed.

(** C2, amended. The binary operators are the listed ones together with
    real division [FDIV]: an enumerator of [BinExpr::Op] other than the
    placeholder [Invalid] is one of these seventeen and conversely; the
    operator of every well-formed [BinExpr] node is one of them; and a tag
    value stands for an enumerator exactly when it lies in 0..17. *)
Theorem BinExpr_operators_are_listed_or_FDIV :
  (forall op : BinExpr.Op,
      op <> BinExpr.Invalid <-> In op (BinExpr.FDIV :: listed_binary_ops))
  /\ (forall e : Expression,
        BinExpr_well_formed e = true ->
        exists op, BinExpr_op e = Some op
                   /\ In op (BinExpr.FDIV :: listed_binary_ops))
  /\ (forall c : Z, is_Some (BinExpr.of_code c) <-> 0 <= c <= 17)
  /\ NoDup (BinExpr.FDIV :: listed_binary_ops)
  /\ (forall op : BinExpr.Op, In op BinExpr.enumerators)
  /\ length BinExpr.enumerators = 18%nat.
Proof.
  assert (Hops : forall op : BinExpr.Op,
             op <> BinExpr.Invalid <-> In op (BinExpr.FDIV :: listed_binary_ops)).
  { intros op; split.
    - intros Hne; destruct op; simpl; tauto.
    - intros Hin ->. simpl in Hin. intuition discriminate. }
  split; [exact Hops|]. split.
  { intros e Hwf. unfold BinExpr_well_formed in Hwf.
    destruct (BinExpr_op e) as [op|] eqn:Hop; [|discriminate].
    exists op. split; [reflexivity|]. apply Hops. by intros ->. }
  split.
  { intros c; split.
    - intros [op Hop]. apply BinExpr_of_code_inv in Hop as ->.
      destruct op; simpl; lia.
    - intros Hc.
      assert (Hcases : c = 0 \/ c = 1 \/ c = 2 \/ c = 3 \/ c = 4 \/ c = 5
                \/ c = 6 \/ c = 7 \/ c = 8 \/ c = 9 \/ c = 10 \/ c = 11
                \/ c = 12 \/ c = 13 \/ c = 14 \/ c = 15 \/ c = 16 \/ c = 17)
        by lia.
      repeat (destruct Hcases as [->|Hcases]; [by eexists|]).
      subst c; by eexists. }
  split.
  { unfold listed_binary_ops.
    repeat (apply NoDup_cons; split;
            [ rewrite ?elem_of_cons, elem_of_nil; intuition discriminate | ]).
    apply NoDup_nil; exact I. }
  split; [|reflexivity].
  intros op; destruct op; simpl; tauto.
Qed.

(** C9. A [Parameter] is a var-parameter exactly when it is declared
    by reference ([d_var]) or by const reference ([d_const]); the receiver
    flag alone never makes it one; and every named entity that is not a
    [Parameter] answers [false]. *)
Theorem isVarParam_iff_var_or_const :
  (forall a nm t sc vis err d_var d_const d_receiver,
      isVarParam (mkNamed a nm t sc vis err (KParameter d_var d_const d_receiver)) = true
      <-> d_var = true \/ d_const = true)
  /\ (forall a nm t sc vis err d_receiver,
        isVarParam (mkNamed a nm t sc vis err (KParameter false false d_receiver)) = false)
  /\ (forall n : Named,
        Named_getTag n <> Thing.T_Parameter -> isVarParam n = false)
  /\ (forall a, isVarParam (new_Parameter a) = false).
Proof.
  split.
  { intros. unfold isVarParam; simpl. apply orb_true_iff. }
  split; [reflexivity|]. split; [|reflexivity].
  intros [a nm t sc vis err k] Htag. unfold isVarParam, Named_getTag in *.
  simpl in *. destruct k; try reflexivity. by destruct Htag.
Qed.

(** ** Set literals *)

Lemma SET_bits_above (s : Literal.SET) (i : Z) :
  Literal.is_SET s -> Literal.SET_BIT_LEN <= i -> Z.testbit s i = false.
Proof.
  intros [Hlo Hhi] Hi.
  eapply (proj1 (Z.bounded_iff_bits_nonneg Literal.SET_BIT_LEN s ltac:(done) Hlo));
    eauto.
Qed.

Lemma SET_set_is_SET (s s' : Literal.SET) (i : Z) :
  Literal.is_SET s -> Literal.set s i = Some s' ->
  Literal.is_SET s' /\ Literal.elem i s' = true.
Proof.
  intros Hs. unfold Literal.set.
  destruct (0 <=? i) eqn:H0; [|discriminate].
  destruct (i <? Literal.SET_BIT_LEN) eqn:H1; [|discriminate].
  simpl. intros [= <-].
  apply Z.leb_le in H0. apply Z.ltb_lt in H1.
  assert (Hnn : 0 <= Z.lor s (Z.shiftl 1 i)).
  { apply Z.lor_nonneg. split; [apply Hs|]. apply Z.shiftl_nonneg. lia. }
  split.
  - split; [exact Hnn|].
    apply (Z.bounded_iff_bits_nonneg Literal.SET_BIT_LEN); [done|exact Hnn|].
    intros l Hl. rewrite Z.lor_spec, (SET_bits_above s l Hs Hl).
    rewrite Z.shiftl_spec by (unfold Literal.SET_BIT_LEN in *; lia).
    simpl. apply Z.bits_above_log2; simpl; lia.
  - unfold Literal.elem. rewrite Z.lor_spec, Z.shiftl_spec by lia.
    rewrite Z.sub_diag. simpl. apply orb_true_r.
Qed.

(** C8. A set value is a bitset of [SET_BIT_LEN = 32] bits, so its
    elements are among 0..31: no other number is an element of a value of
    the type, each of 0..31 can be put into one, and setting or testing a
    position from 32 on is refused. *)
Theorem SET_elements_are_0_to_31 (s : Literal.SET) :
  Literal.is_SET s ->
  Literal.SET_BIT_LEN = 32
  /\ (forall i, Literal.elem i s = true -> 0 <= i <= 31)
  /\ (forall i, 0 <= i <= 31 ->
        exists s', Literal.set s i = Some s'
                   /\ Literal.is_SET s' /\ Literal.elem i s' = true)
  /\ (forall i, 31 < i -> Literal.set s i = None /\ Literal.test s i = None)
  /\ (forall i, Literal.elem i Literal.empty = false).
Proof.
  intros Hs. split; [reflexivity|]. split; [|split; [|split]].
  - intros i Hi. unfold Literal.elem in Hi.
    destruct (Z.lt_ge_cases i 0) as [Hneg|Hnn].
    { rewrite Z.testbit_neg_r in Hi by exact Hneg. discriminate. }
    destruct (Z.lt_ge_cases i Literal.SET_BIT_LEN) as [Hlt|Hge].
    { unfold Literal.SET_BIT_LEN in Hlt. lia. }
    rewrite (SET_bits_above s i Hs Hge) in Hi. discriminate.
  - intros i Hi.
    assert (Hset : Literal.set s i = Some (Z.lor s (Z.shiftl 1 i))).
    { unfold Literal.set, Literal.SET_BIT_LEN.
      destruct (Z.leb_spec 0 i); [|lia].
      destruct (Z.ltb_spec i 32); [reflexivity|lia]. }
    eexists; split; [exact Hset|]. eapply SET_set_is_SET; eauto.
  - intros i Hi. unfold Literal.set, Literal.test, Literal.SET_BIT_LEN.
    destruct (Z.ltb_spec i 32); [lia|]. by rewrite andb_false_r.
  - intros i. apply Z.testbit_0_l.
Qed.

(** The set {0, 2} holds 2, which lies in 0..31. *)
Lemma SET_elements_are_0_to_31_witness :
  Literal.is_SET 5 /\ Literal.elem 2 5 = true /\ 0 <= 2 <= 31.
Proof.
  assert (H : Literal.is_SET 5) by (split; [discriminate | reflexivity]).
  split; [exact H|]. split; [reflexivity|].
  exact (proj1 (proj2 (SET_elements_are_0_to_31 5 H)) 2 eq_refl).
Defined.

(** ** File buffers *)

(** C10. [ObsFiles_setPos] treats a negative position as position 0:
    it seeks to [max 0 pos]; no error arises from the sign.  It returns
    [false] without a buffer and when the seek fails, and [true] otherwise. *)
Theorem ObsFiles_setPos_clamps_and_reports
    (QBuffer : Type) (seek : QBuffer -> Z -> bool * QBuffer)
    (pos size : QBuffer -> Z) (fb : ObsFiles.FileBuffer QBuffer) (p : Z) :
  let setPos := ObsFiles.ObsFiles_setPos QBuffer seek pos size in
  (p < 0 -> setPos fb p = setPos fb 0)
  /\ (ObsFiles.d_buf _ fb = None -> ObsFiles.result _ (setPos fb p) = false)
  /\ (forall b, ObsFiles.d_buf _ fb = Some b ->
        ObsFiles.result _ (setPos fb p) = fst (seek b (Z.max 0 p))
        /\ ObsFiles.buffer _ (setPos fb p)
           = ObsFiles.mkFileBuffer _ (Some (snd (seek b (Z.max 0 p)))))
  /\ (ObsFiles.result _ (setPos fb p) = true
      <-> exists b, ObsFiles.d_buf _ fb = Some b
                    /\ fst (seek b (Z.max 0 p)) = true).
Proof.
  intros setPos. subst setPos. unfold ObsFiles.ObsFiles_setPos.
  assert (Hclamp : (if p <? 0 then 0 else p) = Z.max 0 p).
  { destruct (Z.ltb_spec p 0); lia. }
  rewrite Hclamp.
  split.
  { intros Hneg. replace (Z.max 0 p) with 0 by lia. reflexivity. }
  destruct (ObsFiles.d_buf _ fb) as [b|] eqn:Hbuf.
  - split; [discriminate|]. split.
    + intros b0 [= <-]. destruct (seek b (Z.max 0 p)) as [[|] b']; by simpl.
    + destruct (seek b (Z.max 0 p)) as [[|] b'] eqn:Hseek; simpl; split.
      * intros _. exists b. rewrite Hseek. by split.
      * done.
      * discriminate.
      * intros (b0 & [= <-] & Hok). rewrite Hseek in Hok. discriminate.
  - split; [done|]. split; [discriminate|]. simpl; split; [discriminate|].
    intros (b0 & Hb0 & _). discriminate.
Qed.

(** ** Induction over the object graph *)

Import FrontEnd.

Section Induction.

Variable P : Type_ -> Prop.

Hypothesis HBase : forall i k, P (TBaseType i k).
Hypothesis HPointer : forall i to,
  (forall x, to = Some x -> P x) -> P (TPointer i to).
Hypothesis HArray : forall i len lenExpr el,
  (forall x, el = Some x -> P x) -> P (TArray i len lenExpr el).
Hypothesis HRecord : forall i base fields methods,
  (forall x, base = Some x -> P x) ->
  Forall (fun n => forall x, Named_type n = Some x -> P x) fields ->
  Forall (fun n => forall x, Named_type n = Some x -> P x) methods ->
  P (TRecord i base fields methods).
Hypothesis HProcType : forall i ret formals,
  (forall x, ret = Some x -> P x) ->
  Forall (fun n => forall x, Named_type n = Some x -> P x) formals ->
  P (TProcType i ret formals).
Hypothesis HQuali : forall i q selfRef, P (TQualiType i q selfRef).
Hypothesis HEnum : forall i items, P (TEnumeration i items).


End Induction.

Section ExpressionInduction.

Variable P : Expression -> Prop.

Hypothesis HLiteral : forall t v vt n, P (ELiteral t v vt n).
Hypothesis HSetExpr : forall t parts, Forall P parts -> P (ESetExpr t parts).
Hypothesis HIdentLeaf : forall t i nm r m, P (EIdentLeaf t i nm r m).
Hypothesis HUnExpr : forall t op sub,
  (forall x, sub = Some x -> P x) -> P (EUnExpr t op sub).
Hypothesis HIdentSel : forall t sub i nm r,
  (forall x, sub = Some x -> P x) -> P (EIdentSel t sub i nm r).
Hypothesis HArgExpr : forall t op sub args,
  (forall x, sub = Some x -> P x) -> Forall P args -> P (EArgExpr t op sub args).
Hypothesis HBinExpr : forall t op lhs rhs,
  (forall x, lhs = Some x -> P x) -> (forall x, rhs = Some x -> P x) ->
  P (EBinExpr t op lhs rhs).

(** Induction over an expression and its operands. *)
Lemma Expression_operand_ind (e : Expression) : P e.
Proof.
  revert e. fix IH 1. intros e.
  assert (Hopt : forall o : option Expression, forall x, o = Some x -> P x).
  { intros [y|] x Hx; [|discriminate]. injection Hx as <-. apply IH. }
  assert (Hlist : forall l : list Expression, Forall P l).
  { intros l. induction l as [|x l IHl]; constructor; [apply IH | exact IHl]. }
  destruct e.
  - apply HLiteral.
  - apply HSetExpr, Hlist.
  - apply HIdentLeaf.
  - apply HUnExpr, Hopt.
  - apply HIdentSel, Hopt.
  - apply HArgExpr; [apply Hopt | apply Hlist].
  - apply HBinExpr; apply Hopt.
Qed.

End ExpressionInduction.

Section StatementInduction.

Variable P : Statement -> Prop.

Hypothesis HCall : forall what, P (SCall what).
Hypothesis HReturn : forall what, P (SReturn what).
Hypothesis HExit : P SExit.
Hypothesis HAssign : forall lhs rhs, P (SAssign lhs rhs).
Hypothesis HIfLoop : forall op conds thens els,
  Forall (Forall P) thens -> Forall P els -> P (SIfLoop op conds thens els).
Hypothesis HForLoop : forall id from to by_ byVal body,
  Forall P body -> P (SForLoop id from to by_ byVal body).
Hypothesis HCaseStmt : forall exp cases els typeCase,
  Forall (fun c : list Expression * list Statement => Forall P (snd c)) cases ->
  Forall P els -> P (SCaseStmt exp cases els typeCase).


End StatementInduction.

(** ** Scopes *)

Lemma asScope_withScope (this : Named) (s s' : Scope) :
  Named_asScope this = Some s -> Named_asScope (Named_withScope this s') = Some s'.
Proof.
  destruct this as [a nm t sc v e k]. unfold Named_asScope; simpl.
  destruct k; intros H; try discriminate; reflexivity.
Qed.

Lemma find_local (h : Heap) (fuel : nat) (this : Named) (s : Scope)
    (name : string) :
  Named_asScope this = Some s ->
  find h fuel this name false = d_names s !! name.
Proof.
  intros Hs. destruct fuel; simpl; rewrite Hs; by destruct (d_names s !! name).
Qed.

(** C4. [add] fails exactly when the scope already holds an entity of that
    name at its own level; a failed [add] leaves the scope as it was and
    is reported as [duplicate-name]; after a successful one the name map
    holds the entity under its name, a non-recursive [find] of the name
    answers the entity, the entity is the last of the insertion list and
    every other name is looked up as before. *)
Theorem Scope_add_fails_iff_name_exists (this n : Named) (s : Scope) :
  Named_asScope this = Some s ->
  (fst (add this n) = false <-> is_Some (d_names s !! Named_name n))
  /\ (fst (add this n) = false ->
        snd (add this n) = this /\ snd (declare this n) = [DuplicateName])
  /\ (fst (add this n) = true ->
        exists s',
          Named_asScope (snd (add this n)) = Some s'
          /\ d_names s' !! Named_name n = Some (Named_addr n)
          /\ (forall h fuel,
                find h fuel (snd (add this n)) (Named_name n) false
                = Some (Named_addr n))
          /\ d_order s' = d_order s ++ [Named_addr n]
          /\ (forall other, other <> Named_name n ->
                d_names s' !! other = d_names s !! other)
          /\ snd (declare this n) = []).
Proof.
  intros Hs. unfold declare, add. rewrite Hs.
  destruct (d_names s !! Named_name n) as [old|] eqn:Hold; simpl.
  - split; [split; [by eexists | done]|]. split; [done | discriminate].
  - split; [split; [discriminate | by intros [? ?]]|].
    split; [discriminate|]. intros _.
    eexists. split; [by eapply asScope_withScope|]. simpl.
    split; [by rewrite lookup_insert_eq|]. split.
    { intros h fuel.
      erewrite find_local by (by eapply asScope_withScope).
      simpl. by rewrite lookup_insert_eq. }
    split; [done|]. split; [|done].
    intros other Hne. by rewrite lookup_insert_ne.
Qed.

(** Adding a second [x] fails and a [y] succeeds. *)
Lemma Scope_add_fails_iff_name_exists_witness :
  Named_asScope Sample.M = Some Sample.M_scope
  /\ fst (add Sample.M (new_Named 20 "x" None (Some 1%positive) KVariable)) = false
  /\ fst (add Sample.M (new_Named 21 "y" None (Some 1%positive) KVariable)) = true.
Proof.
  split; [reflexivity|]. split.
  - exact (proj2 (proj1 (Scope_add_fails_iff_name_exists Sample.M
                           (new_Named 20 "x" None (Some 1%positive) KVariable)
                           Sample.M_scope eq_refl))
             (ex_intro _ 2%positive eq_refl)).
  - reflexivity.
Defined.

(** ** The checker's traversal helpers *)







(** ** The FOR statement *)

(** C5. Checking a FOR statement without a step records the step +1;
    a step that is a compile-time integer constant equal to zero is
    reported as [for-step-zero] and leaves the recorded step as it was
    (it is not replaced by +1); any other integer constant is recorded as
    the step. *)
Theorem ForLoop_step_default_and_zero (env : Env) (ret : option Type_)
    (inLoop : bool) (id from to : option Expression) (byVal : Value)
    (body : list Statement) :
  (ForLoop_byVal (fst (checkStmt env ret inLoop
                         (SForLoop id from to None byVal body)))
   = Some (VInt 1)
   /\ ForLoop_by (fst (checkStmt env ret inLoop
                         (SForLoop id from to None byVal body)))
      = Some None)
  /\ forall b : Expression,
       let b' := fst (checkExpr env RhsRole false b) in
       let r := checkStmt env ret inLoop (SForLoop id from to (Some b) byVal body) in
       ForLoop_by (fst r) = Some (Some b')
       /\ (evalInt (heap env) b' = Some 0 ->
             In ForStepZero (snd r) /\ ForLoop_byVal (fst r) = Some byVal)
       /\ (forall n, evalInt (heap env) b' = Some n -> n <> 0 ->
             ForLoop_byVal (fst r) = Some (VInt n))
       /\ (evalInt (heap env) b' = None ->
             snd r <> [] /\ ForLoop_byVal (fst r) = Some byVal).
Proof.
  split.
  - simpl.
    destruct (on_opt _ id) as [id' e1], (on_opt _ from) as [from' e2],
      (on_opt _ to) as [to' e3], (on_list _ body) as [body' e6].
    by simpl.
  - intros b b' r. subst b' r. simpl.
    destruct (on_opt _ id) as [id' e1], (on_opt _ from) as [from' e2],
      (on_opt _ to) as [to' e3].
    destruct (checkExpr env RhsRole false b) as [b' e4]. simpl.
    unfold stepRule.
    destruct (evalInt (heap env) b') as [n|] eqn:Hn.
    + destruct (Z.eqb_spec n 0) as [->|Hne];
        destruct (on_list _ body) as [body' e6]; simpl.
      * split; [done|]. split.
        { intros _. split; [|done].
          rewrite !in_app_iff. do 6 right. apply in_eq. }
        split; [by intros m [= <-] ?|]. discriminate.
      * split; [done|]. split; [by intros [= ?]|].
        split; [by intros m [= <-] _|]. discriminate.
    + destruct (on_list _ body) as [body' e6]; simpl.
      split; [done|]. split; [discriminate|]. split; [discriminate|].
      intros _. split; [|done].
      intros Hnil. repeat (apply app_eq_nil in Hnil as [? Hnil]).
      discriminate.
Qed.

(** ** Pointer targets *)




Section OwnedInvariant.

Variable env : Env.
Variable pre post : Type_ -> bool.
Variable bad : Error.

(** What resolution does to the type itself. *)
Hypothesis top : forall self c t,
  pre t = true ->
  ~ In bad (snd (resolveType env self c t)) ->
  post (fst (resolveType env self c t)) = true.





End OwnedInvariant.





(** ** Array lengths *)

Lemma wrap_small (w v : Z) : 0 <= v < 2 ^ w -> wrap w v = v.
Proof. intros H. unfold wrap. by apply Z.mod_small. Qed.









(** ** Types and targets of expressions *)

Section ExpressionInvariant.







End ExpressionInvariant.

Section StatementInvariant.






End StatementInvariant.







(** ** The passes on the sample module *)

(** Scenario "simple constant": [1+2*3] is an INTEGER of value 7. *)
Example constant_expression_is_INTEGER_7 :
  Expression_type (fst (checkExpr Sample.env RhsRole false Sample.seven))
  = Some Sample.INT
  /\ snd (checkExpr Sample.env RhsRole false Sample.seven) = []
  /\ evalInt Sample.store Sample.seven = Some 7.
Proof. by vm_compute. Qed.

(** Scenario "forward pointer": the module resolves without a
    diagnostic, and the pointers of [P] and of the list [L] (which refers
    to itself) have record targets. *)
Example forward_pointer_is_resolved :
  snd (resolveModule Sample.env) = []
  /\ (Named_type <$> heap (fst (resolveModule Sample.env)) !! 5%positive)
     ≫= (fun t => pointersOk <$> t) = Some true
  /\ (Named_type <$> heap (fst (resolveModule Sample.env)) !! 9%positive)
     ≫= (fun t => pointersOk <$> t) = Some true.
Proof. by vm_compute. Qed.

(** [POINTER TO INTEGER] is reported. *)
Example pointer_to_INTEGER_is_reported :
  snd (resolveType Sample.env None false
         (TPointer None (Some (Sample.quali "INTEGER"))))
  = [PointerBaseIllegal].
Proof. by vm_compute. Qed.

(** [ARRAY N OF INTEGER] gets the length 10; [ARRAY x OF INTEGER], whose
    length is a variable, is reported; in [ARRAY N OF ARRAY OF INTEGER]
    both arrays have the length their declaration asks for. *)
Example array_lengths_are_constants :
  Array_len (fst (resolveType Sample.env None false
                    (TArray None 0 (Some (Sample.leaf "N"))
                       (Some (Sample.quali "INTEGER")))))
  = Some 10
  /\ snd (resolveType Sample.env None false
            (TArray None 0 (Some (Sample.leaf "x"))
               (Some (Sample.quali "INTEGER"))))
     = [ArrayLengthError]
  /\ arraysOk (heap Sample.env)
       (fst (resolveType Sample.env None false
               (TArray None 0 (Some (Sample.leaf "N"))
                  (Some (TArray None 0 None
                           (Some (Sample.quali "INTEGER")))))))
     = true.
Proof. by vm_compute. Qed.

(** The loop without a step gets the step +1 and checks without a
    diagnostic; the loop with the step [1-1] is reported. *)
Example steps_of_the_sample_loops :
  ForLoop_byVal (fst (checkStmt Sample.envQ None false Sample.loop))
  = Some (VInt 1)
  /\ snd (checkStmt Sample.envQ None false Sample.loop) = []
  /\ snd (checkStmt Sample.envQ None false Sample.stuck_loop) = [ForStepZero]
  /\ ForLoop_byVal (fst (checkStmt Sample.envQ None false Sample.stuck_loop))
     = Some VNone.
Proof. by vm_compute. Qed.

(** The sample module checks without a diagnostic, so all its
    expressions are typed and resolved; with a use of an undeclared
    identifier it is marked, and that use has neither type nor target. *)
Example the_sample_module_checks :
  snd (checkModule Sample.env Sample.code) = []
  /\ codeOk (fst (fst (checkModule Sample.env Sample.code))) = true
  /\ snd (checkModule Sample.env Sample.broken_code)
     = [UnresolvedIdent; AssignIncompatible]
  /\ Named_hasErrors (snd (fst (checkModule Sample.env Sample.broken_code)))
     = true
  /\ codeOk (fst (fst (checkModule Sample.env Sample.broken_code))) = false.
Proof. by vm_compute. Qed.

(** Position -1 of an open file is position 0; a closed file cannot be
    positioned, which is reported with a warning. *)
Example setPos_on_sample_files :
  ObsFiles.result _ (Sample.setPos Sample.open_file (-1)) = true
  /\ Sample.setPos Sample.open_file (-1) = Sample.setPos Sample.open_file 0
  /\ ObsFiles.result _ (Sample.setPos Sample.closed_file 5) = false
  /\ ObsFiles.warnings _ (Sample.setPos Sample.closed_file 5)
     = [ObsFiles.CouldNotSeekTo 5 2 3]
  /\ ObsFiles.result _
       (Sample.setPos (ObsFiles.mkFileBuffer _ None) 0) = false.
Proof. by vm_compute. Qed.

(** * Tags, modules and the runtime's files *)

(** ** Tags *)

(** [getTagName] stays inside [s_tagName] for every node when the array
    has [T_MAX] entries: the tag of an object of any class that overrides
    [getTag] is one of the enumerators after [T_Thing] and before
    [T_MAX]. *)
Theorem getTagName_stays_in_s_tagName (s_tagName : list string)
    (x : Members.Node) :
  Z.of_nat (length s_tagName) = Members.Tag_code Thing.T_MAX ->
  0 < Members.Tag_code (Members.getTag x) < Members.Tag_code Thing.T_MAX
  /\ exists n, Members.getTagName s_tagName x = Some n.
Proof.
  intros Hlen.
  assert (Hrange : 0 < Members.Tag_code (Members.getTag x)
                   < Members.Tag_code Thing.T_MAX).
  { destruct x as [t|n|e|s]; simpl.
    - destruct t; simpl; lia.
    - destruct n as [a nm t sc v he k]. destruct k; simpl; lia.
    - destruct e; simpl; lia.
    - destruct s; simpl; lia. }
  split; [exact Hrange|].
  apply lookup_lt_is_Some_2. lia.
Qed.

Lemma getTagName_stays_in_s_tagName_witness :
  exists n, Members.getTagName (replicate 34 "?"%string)
              (Members.NStatement SExit) = Some n.
Proof.
  exact (proj2 (getTagName_stays_in_s_tagName (replicate 34 "?"%string)
                  (Members.NStatement SExit) eq_refl)).
Defined.


(** ** The module of an expression *)

(** [getModule] answers the [d_mod] of an [IdentLeaf] that is a node of
    the expression, or null.  A [BinExpr] whose left operand is set never
    looks at the right one: when the left operand has no module, neither
    has the [BinExpr], whatever stands on the right. *)
Theorem getModule_is_the_module_of_a_leaf (e : Expression) :
  (forall m, Members.getModule e = Some m ->
     exists t i nm r, In (EIdentLeaf t i nm r (Some m)) (nodes e))
  /\ (forall t op lhs rhs,
        e = EBinExpr t op (Some lhs) rhs ->
        Members.getModule e = Members.getModule lhs).
Proof.
  split; [|by intros t op lhs rhs ->].
  induction e as [| | t i nm r md | t op sub IH | t sub i nm r IH
                 | t op sub args IH _ | t op lhs rhs IHl IHr]
    using Expression_operand_ind; simpl; intros m Hm; try discriminate.
  - subst md. exists t, i, nm, r. by left.
  - destruct sub as [x|]; [|discriminate].
    destruct (IH x eq_refl m Hm) as (t' & i' & nm' & r' & Hin).
    exists t', i', nm', r'. by right.
  - destruct sub as [x|]; [|discriminate].
    destruct (IH x eq_refl m Hm) as (t' & i' & nm' & r' & Hin).
    exists t', i', nm', r'. by right.
  - destruct sub as [x|]; [|discriminate].
    destruct (IH x eq_refl m Hm) as (t' & i' & nm' & r' & Hin).
    exists t', i', nm', r'. right. apply in_or_app. by left.
  - destruct lhs as [x|].
    + destruct (IHl x eq_refl m Hm) as (t' & i' & nm' & r' & Hin).
      exists t', i', nm', r'. right. apply in_or_app. by left.
    + destruct rhs as [y|]; [|discriminate].
      destruct (IHr y eq_refl m Hm) as (t' & i' & nm' & r' & Hin).
      exists t', i', nm', r'. right. apply in_or_app. by right.
Qed.

(** ** The visibility of an expression *)

(** [visibilityFor] answers [NotApplicable], or [ReadWrite], or what
    [IdentSel::visibilityFor] answers for an [IdentSel] that is a node of
    the expression: only a selector makes an expression private or
    read-only.  The operands of a [BinExpr], the parts of a set and the
    arguments of a call are never asked. *)
Theorem visibilityFor_is_restricted_by_a_selector_only
    (IdentSel_visibilityFor : Expression -> option ptr -> Z)
    (e : Expression) (m : option ptr) :
  let v := Members.visibilityFor IdentSel_visibilityFor e m in
  v = Visibility_code NotApplicable
  \/ v = Visibility_code ReadWrite
  \/ exists sel, In sel (nodes e)
                 /\ Expression_getTag sel = Thing.T_IdentSel
                 /\ v = IdentSel_visibilityFor sel m.
Proof.
  induction e as [| | t i nm r md | t op sub IH | t sub i nm r IH
                 | t op sub args IH _ | t op lhs rhs IHl IHr]
    using Expression_operand_ind; simpl; try tauto.
  - destruct sub as [x|]; [|tauto].
    destruct (IH x eq_refl) as [H|[H|(sel & Hin & Htag & H)]]; try tauto.
    right. right. exists sel. by repeat split; [right|..].
  - right. right. eexists. by repeat split; [left|..].
  - destruct sub as [x|]; [|tauto].
    destruct (IH x eq_refl) as [H|[H|(sel & Hin & Htag & H)]]; try tauto.
    right. right. exists sel. repeat split; try done.
    right. apply in_or_app. by left.
Qed.

(** ** File buffers without a buffer *)

(** [ObsFiles_freeFile] deletes the buffer the file held and leaves it
    without one; freeing it again deletes nothing, and freeing after
    [ObsFiles_newFile] deletes the buffer that [newFile] made, which itself
    deleted the one held before.  On a file without a buffer every
    primitive answers its fallback and leaves the file as it is: length and
    position 0, not at the end, [setPos] and [writeByte] false,
    [readByte] 0. *)
Theorem freed_file_answers_fallbacks
    (QBuffer : Type) (new_QBuffer : QBuffer) (open : QBuffer -> QBuffer)
    (seek : QBuffer -> Z -> bool * QBuffer)
    (pos size : QBuffer -> Z) (atEnd : QBuffer -> bool)
    (putChar : QBuffer -> Z -> bool * QBuffer)
    (getChar : QBuffer -> option Z * QBuffer) (char_is_signed : bool)
    (fb : ObsFiles.FileBuffer QBuffer) (p byte : Z) :
  let freed := Runtime.ObsFiles_freeFile QBuffer fb in
  let fb' := fst freed in
  snd freed = optList (ObsFiles.d_buf _ fb)
  /\ ObsFiles.d_buf _ fb' = None
  /\ Runtime.ObsFiles_freeFile QBuffer fb' = (fb', [])
  /\ Runtime.ObsFiles_newFile QBuffer new_QBuffer open fb
     = (true, ObsFiles.mkFileBuffer _ (Some (open new_QBuffer)),
        optList (ObsFiles.d_buf _ fb))
  /\ Runtime.ObsFiles_freeFile QBuffer
       (snd (fst (Runtime.ObsFiles_newFile QBuffer new_QBuffer open fb)))
     = (fb', [open new_QBuffer])
  /\ ObsFiles.ObsFiles_length QBuffer size fb' = 0
  /\ ObsFiles.ObsFiles_getPos QBuffer pos fb' = 0
  /\ Runtime.ObsFiles_atEnd QBuffer atEnd fb' = false
  /\ ObsFiles.ObsFiles_setPos QBuffer seek pos size fb' p
     = ObsFiles.mkOutcome _ false fb' []
  /\ Runtime.ObsFiles_writeByte QBuffer putChar char_is_signed fb' byte
     = (false, fb')
  /\ Runtime.ObsFiles_readByte QBuffer getChar fb' = (0, fb').
Proof.
  intros freed fb'. subst freed fb'.
  unfold Runtime.ObsFiles_freeFile, Runtime.ObsFiles_newFile,
    Runtime.setBuffer. simpl.
  split; [by destruct (ObsFiles.d_buf _ fb)|]. split; [done|].
  split; [done|]. split; [by destruct (ObsFiles.d_buf _ fb)|].
  by repeat split.
Qed.

(** ** Saving a file *)

(** [ObsFiles_saveFile] does not write the bytes of the buffer it is
    given: the buffer is closed and deleted first, and what goes to the
    file is the data of the new buffer that took its place.  So two files
    that hold different buffers leave the same file system, the same new
    buffer and the same warnings, and the answer is true even when the
    file did not open for writing. *)
Theorem saveFile_writes_the_new_buffer
    (QBuffer : Type) (new_QBuffer : QBuffer) (open close : QBuffer -> QBuffer)
    (data : QBuffer -> list Z) (FS : Type) (currentPath : string)
    (absoluteFilePath : string -> string -> string)
    (openWrite : FS -> string -> bool * FS)
    (fwrite : FS -> string -> bool -> list Z -> FS)
    (fs : FS) (s_root filename : string) (b b' : QBuffer) :
  let saveFile :=
    Runtime.ObsFiles_saveFile QBuffer new_QBuffer open close data FS
      currentPath absoluteFilePath openWrite fwrite fs s_root filename in
  let path := absoluteFilePath (Runtime.getPath currentPath s_root) filename in
  let saved := saveFile (ObsFiles.mkFileBuffer _ (Some b)) in
  let saved' := saveFile (ObsFiles.mkFileBuffer _ (Some b')) in
  Runtime.answer _ _ saved = true
  /\ Runtime.files _ _ saved
     = fwrite (snd (openWrite fs path)) path (fst (openWrite fs path))
         (data new_QBuffer)
  /\ Runtime.held _ _ saved = ObsFiles.mkFileBuffer _ (Some (open new_QBuffer))
  /\ Runtime.deleted _ _ saved = [close b]
  /\ Runtime.files _ _ saved = Runtime.files _ _ saved'
  /\ Runtime.held _ _ saved = Runtime.held _ _ saved'
  /\ Runtime.lines _ _ saved = Runtime.lines _ _ saved'
  /\ saveFile (ObsFiles.mkFileBuffer _ None)
     = Runtime.mkSaved _ _ false (ObsFiles.mkFileBuffer _ None) [] fs [].
Proof.
  intros saveFile path saved saved'. subst saveFile path saved saved'.
  unfold Runtime.ObsFiles_saveFile. simpl.
  destruct (openWrite fs _) as [opened fs1]. by simpl.
Qed.

(** ** Bytes through a buffer *)




(** ** The header of the disk image *)

Lemma to_char_signed_range (v : Z) : -128 <= Runtime.to_char true v <= 127.
Proof.
  unfold Runtime.to_char, wrap.
  pose proof (Z.mod_pos_bound (v + 128) (2 ^ 8)). lia.
Qed.

Lemma invalidHeader_signed (hdr : list Z) : Runtime.invalidHeader true hdr = true.
Proof.
  unfold Runtime.invalidHeader.
  assert (H : (Runtime.at_ true hdr 0 =? 141) = false).
  { apply Z.eqb_neq. unfold Runtime.at_.
    pose proof (to_char_signed_range (nth 0 hdr 0)). lia. }
  rewrite H. simpl. by rewrite orb_true_r.
Qed.

Lemma to_char_unsigned (v : Z) : 0 <= v <= 255 -> Runtime.to_char false v = v.
Proof. intros H. unfold Runtime.to_char. apply wrap_small. lia. Qed.

(** The test [seekSector] makes on the first four bytes of a disk file
    compares each [char] of the header with 0x8d, 0xa3, 0x1e and 0x9b.
    Where [char] is signed no [char] equals 0x8d, so every header is
    invalid, and [seekSector] never gets to "using disk file": every line
    it prints is critical.  Where [char] is unsigned the header is valid
    exactly when it is the four bytes 8d a3 1e 9b. *)
Theorem disk_header_needs_unsigned_char :
  (forall hdr, Runtime.invalidHeader true hdr = true)
  /\ (forall hdr, Forall (fun byte => 0 <= byte <= 255) hdr ->
        (Runtime.invalidHeader false hdr = false
         <-> hdr = [0x8d; 0xa3; 0x1e; 0x9b]))
  /\ (forall (QFile : Type) (isOpen : QFile -> bool)
        (setFileName : QFile -> string -> QFile) (fileName : QFile -> string)
        (openReadWrite : QFile -> bool * QFile)
        (read : QFile -> Z -> list Z * QFile) (closeFile : QFile -> QFile)
        (seekFile : QFile -> Z -> bool * QFile)
        (entryList : string -> list string) (currentPath : string)
        (s_disk : QFile) (s_root : string) (sector : Z),
        Forall (fun l => Runtime.severity l = Runtime.Critical)
          (snd (Runtime.seekSector QFile isOpen setFileName fileName
                  openReadWrite read closeFile seekFile entryList
                  currentPath true s_disk s_root sector))).
Proof.
  split; [exact invalidHeader_signed|]. split.
  - intros hdr Hbytes. unfold Runtime.invalidHeader, Runtime.at_. split.
    + intros H.
      repeat (apply orb_false_iff in H as [H ?]).
      apply negb_false_iff, Z.eqb_eq in H.
      destruct hdr as [|a [|b [|c [|d [|? ?]]]]]; simpl in H; try lia.
      inversion Hbytes as [|? ? Ha Hb']; subst.
      inversion Hb' as [|? ? Hb Hc']; subst.
      inversion Hc' as [|? ? Hc Hd']; subst.
      inversion Hd' as [|? ? Hd _]; subst.
      cbn [nth] in *.
      rewrite (to_char_unsigned a Ha) in *.
      rewrite (to_char_unsigned b Hb) in *.
      rewrite (to_char_unsigned c Hc) in *.
      rewrite (to_char_unsigned d Hd) in *.
      repeat match goal with
             | H : negb _ = false |- _ => apply negb_false_iff, Z.eqb_eq in H
             end.
      by subst.
    + by intros ->.
  - intros. unfold Runtime.seekSector.
    destruct (negb (isOpen s_disk)); simpl.
    + unfold Runtime.findDisk.
      destruct (last _) as [name|].
      * destruct (openReadWrite _) as [[|] d1]; simpl.
        -- destruct (read d1 4) as [hdr d2]. rewrite invalidHeader_signed.
           destruct (seekFile _ _). simpl. by repeat constructor.
        -- destruct (seekFile _ _). simpl. by repeat constructor.
      * destruct (seekFile _ _). simpl. by repeat constructor.
    + destruct (seekFile _ _). simpl. constructor.
Qed.

(** ** Reading a sector *)

Lemma store_fits (dst src : list Z) (off : Z) :
  0 <= off -> off + Z.of_nat (length src) <= Z.of_nat (length dst) ->
  Runtime.store dst off src
  = Some (take (Z.to_nat off) dst ++ src
          ++ drop (Z.to_nat off + length src) dst).
Proof.
  intros H0 H1. unfold Runtime.store.
  destruct (Z.leb_spec 0 off); [|lia].
  destruct (Z.leb_spec (off + Z.of_nat (length src)) (Z.of_nat (length dst)));
    [done|lia].
Qed.

Lemma memset0_all (dst : list Z) (n : Z) :
  0 <= n -> length dst = Z.to_nat n ->
  Runtime.memset0 dst 0 n = Some (repeat 0 (Z.to_nat n)).
Proof.
  intros Hn Hlen. unfold Runtime.memset0.
  destruct (Z.leb_spec 0 n); [|lia].
  rewrite store_fits; [|lia|rewrite repeat_length, Hlen; lia].
  rewrite repeat_length. change (Z.to_nat 0) with 0%nat.
  rewrite take_0, drop_ge by lia. by rewrite app_nil_r.
Qed.

(** [ObsFiles_readSector] fills the whole array of [SECLEN] bytes and
    keeps nothing of what the array held: with zeros when the seek fails or
    the read answers an error, otherwise with the bytes read followed by
    zeros.  Here [read] stores as many bytes as it answers, at most
    [SECLEN], as [QIODevice::read] does. *)
Theorem readSector_fills_the_array
    (QFile : Type) (isOpen : QFile -> bool)
    (setFileName : QFile -> string -> QFile) (fileName : QFile -> string)
    (openReadWrite : QFile -> bool * QFile)
    (read : QFile -> Z -> list Z * QFile)
    (readInto : QFile -> Z -> Z * list Z * QFile)
    (closeFile : QFile -> QFile) (seekFile : QFile -> Z -> bool * QFile)
    (entryList : string -> list string) (currentPath : string)
    (char_is_signed : bool) (s_disk : QFile) (s_root : string) (sector : Z)
    (data_ data' : list Z) :
  let seeked :=
    Runtime.seekSector QFile isOpen setFileName fileName openReadWrite read
      closeFile seekFile entryList currentPath char_is_signed s_disk s_root
      sector in
  let res := fst (fst (readInto (snd (fst seeked)) Runtime.SECLEN)) in
  let got := snd (fst (readInto (snd (fst seeked)) Runtime.SECLEN)) in
  let readSector :=
    Runtime.ObsFiles_readSector QFile isOpen setFileName fileName
      openReadWrite read readInto closeFile seekFile entryList currentPath
      char_is_signed s_disk s_root sector in
  length data_ = Z.to_nat Runtime.SECLEN ->
  length data' = Z.to_nat Runtime.SECLEN ->
  Z.of_nat (length got) <= Runtime.SECLEN ->
  (0 <= res -> res = Z.of_nat (length got)) ->
  readSector data_ = readSector data'
  /\ fst (fst (readSector data_))
     = Some (if fst (fst seeked) && (0 <=? res)
             then got ++ repeat 0 (Z.to_nat (Runtime.SECLEN - res))
             else repeat 0 (Z.to_nat Runtime.SECLEN)).
Proof.
  intros seeked res got readSector. subst res got readSector.
  unfold Runtime.ObsFiles_readSector. fold seeked.
  assert (Hn : 0 <= Runtime.SECLEN) by done.
  revert Hn. generalize Runtime.SECLEN as n. intros n Hn.
  clearbody seeked. destruct seeked as [[ok d] said].
  cbn [fst snd]. intros Hlen Hlen' Hfit Hres.
  assert (Hfill : forall dst : list Z,
    length dst = Z.to_nat n ->
    (if negb ok then (Runtime.memset0 dst 0 n, d, said)
     else
       let '(res, got, s_disk) := readInto d n in
       (match Runtime.store dst 0 got with
        | Some data_ =>
            if negb (res =? n) then
              if res <? 0 then Runtime.memset0 data_ 0 n
              else Runtime.memset0 data_ res (n - res)
            else Some data_
        | None => None
        end, s_disk, said))
    = (Some (if ok && (0 <=? fst (fst (readInto d n)))
             then snd (fst (readInto d n))
                  ++ repeat 0 (Z.to_nat (n - fst (fst (readInto d n))))
             else repeat 0 (Z.to_nat n)),
       if ok then snd (readInto d n) else d, said)).
  { intros dst Hdst. destruct ok; cbn [negb andb]; [|by rewrite memset0_all].
    destruct (readInto d n) as [[res got] d']. cbn [fst snd] in *.
    rewrite store_fits by lia. change (Z.to_nat 0) with 0%nat.
    rewrite take_0, Nat.add_0_l, app_nil_l.
    set (filled := got ++ drop (length got) dst).
    assert (Hfilled : length filled = Z.to_nat n).
    { unfold filled. rewrite length_app, length_drop. lia. }
    destruct (Z.ltb_spec res 0) as [Hneg|Hpos].
    - destruct (Z.eqb_spec res n) as [->|_]; [lia|]. cbn [negb].
      destruct (Z.leb_spec 0 res); [lia|]. by rewrite memset0_all.
    - specialize (Hres Hpos).
      destruct (Z.leb_spec 0 res); [|lia].
      destruct (Z.eqb_spec res n) as [Hfull|Hpart]; cbn [negb].
      + unfold filled. rewrite drop_ge by lia.
        replace (n - res) with 0 by lia. by change (Z.to_nat 0) with 0%nat.
      + unfold Runtime.memset0.
        destruct (Z.leb_spec 0 (n - res)); [|lia].
        rewrite store_fits; [|lia|rewrite repeat_length; lia].
        rewrite repeat_length. f_equal. f_equal.
        unfold filled. rewrite Hres, Nat2Z.id, take_app_length.
        rewrite drop_ge; [by rewrite app_nil_r|].
        rewrite length_app, length_drop. lia. }
  rewrite (Hfill data_ Hlen), (Hfill data' Hlen'). by split.
Qed.

Lemma readSector_fills_the_array_witness :
  fst (fst (Mem.readSector Mem.disk "" (0x80002 + 4) (repeat 7 1024)))
  = Some ([1; 2; 3] ++ repeat 0 1021).
Proof.
  exact (proj2 (readSector_fills_the_array Mem.MemFile Mem.opened
                  Mem.file_setFileName Mem.name Mem.file_open Mem.file_read
                  Mem.file_readInto Mem.file_close Mem.file_seek
                  (fun _ => ["Oberon.dsk"%string]) "."%string false
                  Mem.disk "" (0x80002 + 4) (repeat 7 1024) (repeat 0 1024)
                  eq_refl eq_refl ltac:(by vm_compute) ltac:(by vm_compute))).
Defined.

(** ** The disk image where [char] is signed *)

Lemma file_seek_needs_open (d : Mem.MemFile) (p : Z) :
  Mem.opened d = false -> Mem.file_seek d p = (false, d).
Proof. unfold Mem.file_seek. by intros ->. Qed.

Lemma file_open_succeeds (d : Mem.MemFile) :
  fst (Mem.file_open d) = false -> Mem.opened (snd (Mem.file_open d)) = false.
Proof. discriminate. Qed.

(** Where [char] is signed the disk image is out of reach: starting with
    [s_disk] closed, [seekSector] fails and leaves it closed, so
    [ObsFiles_readSector] fills the array with zeros and
    [ObsFiles_writeSector] writes nothing, whatever disk files the
    directory holds.  Here a closed file does not seek, [close] closes,
    a failed [open] leaves the file closed and [setFileName] does not open
    it, as with [QFile]. *)
Theorem signed_char_keeps_the_disk_closed
    (QFile : Type) (isOpen : QFile -> bool)
    (setFileName : QFile -> string -> QFile) (fileName : QFile -> string)
    (openReadWrite : QFile -> bool * QFile)
    (read : QFile -> Z -> list Z * QFile)
    (readInto : QFile -> Z -> Z * list Z * QFile)
    (write : QFile -> list Z -> Z * QFile)
    (closeFile : QFile -> QFile) (seekFile : QFile -> Z -> bool * QFile)
    (entryList : string -> list string) (currentPath : string)
    (s_disk : QFile) (s_root : string) (sector : Z) (data_ : list Z) :
  let seeked :=
    Runtime.seekSector QFile isOpen setFileName fileName openReadWrite read
      closeFile seekFile entryList currentPath true s_disk s_root sector in
  (forall d p, isOpen d = false -> seekFile d p = (false, d)) ->
  (forall d, isOpen (closeFile d) = false) ->
  (forall d, fst (openReadWrite d) = false ->
             isOpen (snd (openReadWrite d)) = false) ->
  (forall d n, isOpen d = false -> isOpen (setFileName d n) = false) ->
  isOpen s_disk = false ->
  length data_ = Z.to_nat Runtime.SECLEN ->
  fst (fst seeked) = false
  /\ isOpen (snd (fst seeked)) = false
  /\ Runtime.ObsFiles_readSector QFile isOpen setFileName fileName
       openReadWrite read readInto closeFile seekFile entryList currentPath
       true s_disk s_root sector data_
     = (Some (repeat 0 (Z.to_nat Runtime.SECLEN)), snd (fst seeked),
        snd seeked)
  /\ Runtime.ObsFiles_writeSector QFile isOpen setFileName fileName
       openReadWrite read write closeFile seekFile entryList currentPath
       true s_disk s_root sector data_
     = (snd (fst seeked), snd seeked).
Proof.
  intros seeked Hseek Hclose Hopen Hname Hclosed Hlen.
  assert (Hseeked : exists d said,
            seeked = (false, d, said) /\ isOpen d = false).
  { subst seeked. unfold Runtime.seekSector. rewrite Hclosed. cbn [negb].
    unfold Runtime.findDisk.
    destruct (last _) as [name|].
    - pose proof (Hopen (setFileName s_disk name)) as Hfail.
      destruct (openReadWrite _) as [[|] d1]; cbn [negb fst snd] in *.
      + destruct (read d1 4) as [hdr d2]. rewrite invalidHeader_signed.
        rewrite (Hseek _ _ (Hclose d2)). by eexists _, _.
      + rewrite (Hseek _ _ (Hfail eq_refl)). eexists _, _. split; [done|].
        by apply Hfail.
    - rewrite (Hseek _ _ Hclosed). by eexists _, _. }
  destruct Hseeked as (d & said & Heq & Hd).
  unfold Runtime.ObsFiles_readSector, Runtime.ObsFiles_writeSector.
  fold seeked. rewrite Heq. cbn [negb fst snd].
  rewrite memset0_all by done. by repeat split.
Qed.

Lemma signed_char_keeps_the_disk_closed_witness :
  Mem.opened (snd (fst (Mem.seekSector true Mem.disk "" (0x80002 + 4)))) = false.
Proof.
  exact (proj1 (proj2 (signed_char_keeps_the_disk_closed Mem.MemFile
                  Mem.opened Mem.file_setFileName Mem.name Mem.file_open
                  Mem.file_read Mem.file_readInto
                  (fun d _ => (-1, d)) Mem.file_close Mem.file_seek
                  (fun _ => ["Oberon.dsk"%string]) "."%string
                  Mem.disk "" (0x80002 + 4) (repeat 7 1024)
                  file_seek_needs_open (fun _ => eq_refl) file_open_succeeds
                  (fun _ _ H => H) eq_refl eq_refl))).
Defined.

(** ** Renaming a file *)

Lemma dir_remove_removes (fs : Mem.Dir) (dir name : string) :
  fst (Mem.dir_remove fs dir name) = true ->
  Mem.dir_exists (snd (Mem.dir_remove fs dir name)) (Mem.dir_path dir name)
  = false.
Proof.
  unfold Mem.dir_remove.
  destruct (Mem.dir_exists fs _); [|discriminate]. intros _. simpl.
  unfold Mem.dir_exists. rewrite lookup_delete_eq.
  apply bool_decide_eq_false. by intros [? ?].
Qed.

Lemma dir_rename_needs_source (fs : Mem.Dir) (dir a b : string) :
  Mem.dir_exists fs (Mem.dir_path dir a) = false ->
  Mem.dir_rename fs dir a b = (false, fs).
Proof.
  unfold Mem.dir_exists, Mem.dir_rename. intros H.
  apply bool_decide_eq_false in H.
  destruct (fs !! Mem.dir_path dir a); [|done]. destruct H. by eexists.
Qed.

(** [ObsFiles_renameFile] answers false and leaves the directory alone
    when the old name does not exist.  When the new name exists the file of
    that name is removed before the renaming is tried, so renaming an
    existing file to its own name removes it: the renaming then finds no
    source, the answer is false and the file is gone.  Here a removal that
    succeeds leaves no file of the name, and a renaming without source fails
    and changes nothing, as with [QDir]. *)
Theorem renameFile_onto_itself_removes_the_file
    (FS : Type) (currentPath : string)
    (absoluteFilePath : string -> string -> string)
    (exists_ : FS -> string -> bool)
    (remove : FS -> string -> string -> bool * FS)
    (rename : FS -> string -> string -> string -> bool * FS)
    (fs : FS) (s_root name : string) :
  let renameFile :=
    Runtime.ObsFiles_renameFile FS currentPath absoluteFilePath exists_
      remove rename in
  let dir := Runtime.getPath currentPath s_root in
  (forall fs dir name, fst (remove fs dir name) = true ->
     exists_ (snd (remove fs dir name)) (absoluteFilePath dir name) = false) ->
  (forall fs dir a b, exists_ fs (absoluteFilePath dir a) = false ->
     rename fs dir a b = (false, fs)) ->
  (forall other, exists_ fs (absoluteFilePath dir other) = false ->
     renameFile fs s_root other name = (false, fs))
  /\ (exists_ fs (absoluteFilePath dir name) = true ->
      fst (remove fs dir name) = true ->
      fst (renameFile fs s_root name name) = false
      /\ exists_ (snd (renameFile fs s_root name name))
           (absoluteFilePath dir name) = false).
Proof.
  intros renameFile dir Hremove Hrename. subst renameFile dir.
  unfold Runtime.ObsFiles_renameFile. split.
  - by intros other ->.
  - intros -> Hremoved. simpl.
    specialize (Hremove _ _ _ Hremoved).
    destruct (remove fs _ name) as [removed fs1]. simpl in *.
    by rewrite (Hrename _ _ _ _ Hremove).
Qed.

Lemma renameFile_onto_itself_removes_the_file_witness :
  fst (Mem.renameFile Mem.two_files "" "a" "a") = false
  /\ Mem.dir_exists (snd (Mem.renameFile Mem.two_files "" "a" "a"))
       (Mem.dir_path "." "a") = false.
Proof.
  exact (proj2 (renameFile_onto_itself_removes_the_file Mem.Dir "."
                  Mem.dir_path Mem.dir_exists Mem.dir_remove Mem.dir_rename
                  Mem.two_files "" "a" dir_remove_removes
                  dir_rename_needs_source)
           eq_refl eq_refl).
Defined.

(** ** Opening a file *)

(** [ObsFiles_openFile] never changes the file system.  It answers true
    exactly when the path is a file, exists and opens for reading; the
    buffer the file held is then deleted and replaced by a new buffer that
    is given the content.  When it answers false the file buffer is as it
    was: the buffer held is neither deleted nor replaced. *)
Theorem openFile_replaces_the_buffer_on_success_only
    (QBuffer : Type) (new_QBuffer : QBuffer) (open : QBuffer -> QBuffer)
    (setData : QBuffer -> list Z -> QBuffer) (FS : Type)
    (currentPath : string) (absoluteFilePath : string -> string -> string)
    (isFile exists_ : FS -> string -> bool)
    (openRead : FS -> string -> option (list Z))
    (fs : FS) (s_root filename : string) (fb : ObsFiles.FileBuffer QBuffer) :
  let path := absoluteFilePath (Runtime.getPath currentPath s_root) filename in
  let opened :=
    Runtime.ObsFiles_openFile QBuffer new_QBuffer open setData FS currentPath
      absoluteFilePath isFile exists_ openRead fs s_root filename fb in
  Runtime.files _ _ opened = fs
  /\ (Runtime.answer _ _ opened = true
      <-> isFile fs path = true /\ exists_ fs path = true
          /\ exists content, openRead fs path = Some content)
  /\ (Runtime.answer _ _ opened = false ->
      Runtime.held _ _ opened = fb /\ Runtime.deleted _ _ opened = [])
  /\ (forall content,
        Runtime.answer _ _ opened = true ->
        openRead fs path = Some content ->
        Runtime.held _ _ opened
        = ObsFiles.mkFileBuffer _ (Some (open (setData new_QBuffer content)))
        /\ Runtime.deleted _ _ opened = optList (ObsFiles.d_buf _ fb)).
Proof.
  intros path opened. subst opened. unfold Runtime.ObsFiles_openFile.
  fold path. clearbody path.
  destruct (isFile fs path); simpl.
  - destruct (exists_ fs path); simpl.
    + destruct (openRead fs path) as [content|]; simpl.
      * split; [done|]. split; [|split; [discriminate|]].
        -- split; [|done]. intros _. repeat split. by exists content.
        -- intros c _ [= <-]. split; [done|].
           by destruct (ObsFiles.d_buf _ fb).
      * split; [done|]. split; [|split; [done|discriminate]].
        split; [discriminate|]. by intros (_ & _ & c & ?).
    + split; [done|]. split; [|split; [done|discriminate]].
      split; [discriminate|]. by intros (_ & ? & _).
  - split; [done|]. split; [|split; [done|discriminate]].
    split; [discriminate|]. by intros (? & _).
Qed.

(** ** The primitives on the devices in memory *)

(** Saving a buffer that holds [1; 2; 3] under the name [a] leaves the
    file [a] empty. *)
Example saveFile_leaves_an_empty_file :
  let saved :=
    Mem.saveFile Mem.two_files "" "a"
      (ObsFiles.mkFileBuffer _ (Some (ObsFiles.mkMemBuffer [1; 2; 3] 3 true))) in
  Runtime.answer _ _ saved = true
  /\ Runtime.files _ _ saved !! Mem.dir_path "." "a" = Some [].
Proof. by vm_compute. Qed.

(** The disk file with the header 8d a3 1e 9b is taken where [char] is
    unsigned and refused where it is signed. *)
Example seekSector_on_the_sample_disk :
  Mem.seekSector false Mem.disk "" 0x80002
  = (true, Mem.mkMemFile (Mem.image Mem.disk) "Oberon.dsk" 0 true,
     [Runtime.mkLine Runtime.Debug "using disk file" (Some "Oberon.dsk"%string)])
  /\ Mem.seekSector true Mem.disk "" 0x80002
     = (false, Mem.mkMemFile (Mem.image Mem.disk) "Oberon.dsk" 0 false,
        [Runtime.mkLine Runtime.Critical "invalid disk format"
           (Some "Oberon.dsk"%string)]).
Proof. by vm_compute. Qed.

(** The byte [0x1ff] written to a new file and read back from position 0
    is 255, with [char] signed or not; at the end of the buffer [readByte]
    answers 0. *)
Example byte_through_a_new_file :
  forall char_is_signed : bool,
    let written :=
      snd (Mem.writeByte char_is_signed
             (ObsFiles.mkFileBuffer _ (Some (Mem.mem_open Mem.mem_new))) 0x1ff) in
    fst (Mem.readByte char_is_signed written) = 0
    /\ fst (Mem.readByte char_is_signed
              (ObsFiles.buffer _ (Sample.setPos written 0))) = 255.
Proof. by intros [|]; vm_compute. Qed.

(** Opening [a] gives a buffer with its two bytes; opening a name the
    directory does not hold answers false and keeps the buffer. *)
Example openFile_on_the_sample_directory :
  Runtime.held _ _
    (Mem.openFile Mem.two_files "" "a" (ObsFiles.mkFileBuffer _ None))
  = ObsFiles.mkFileBuffer _ (Some (ObsFiles.mkMemBuffer [1; 2] 0 true))
  /\ Mem.openFile Mem.two_files "" "c" Sample.open_file
     = Runtime.mkSaved _ _ false Sample.open_file [] Mem.two_files [].
Proof. by vm_compute. Qed.
